(** * Image-Classification: the augmentation pipeline builder

    A shallow embedding of [dataset/transforms.py]: the transform registry
    ([AUG_METHODS], [register_method]), the configuration compiler
    ([create_AugTransforms]), the custom transforms [Cutout], [CutAddNoise]
    and [PadIfNeed], and the class-wise dispatcher's constructor
    ([BaseClassWiseAugmenter.__init__]).

    Python objects live in a heap and are named by references, so that
    two pipelines holding the same step object are visibly aliased.
    Exceptions are results, random draws come from explicit generator
    states, and Python floats are read as exact rationals.

    What the module takes from outside is a parameter or a stated
    reading: the listing of a directory and PIL's reading of a colour
    are parameters; [eval] on a string of the configuration is a
    parameter too, an expression without effects; a torchvision class
    creates an object that records its arguments; images are RGB. *)

From Stdlib Require Import ZArith QArith Lqa List String Ascii Lia Bool Sorted.
From stdpp Require Import gmap strings list fin_maps pretty.
Local Open Scope Z_scope.
Set Warnings "-register-all".
Set Default Proof Using "Type".

(** ** Python values and exceptions *)

(** A reference names an object of the heap by its position. *)
Definition ref := nat.

Inductive value :=
| VNone
| VBool (b : bool)
| VInt (z : Z)
| VFloat (q : Q)
| VStr (s : string)
| VList (l : list value)
| VTuple (l : list value)
| VDict (d : list (string * value))
| VObj (r : ref).

(** A [dict] keeps its items in insertion order. *)
Definition dict := list (string * value).

Inductive exn :=
| ValueError (msg : string)
| KeyError (key : string)
| AssertionError (msg : string)
| IndexError (msg : string)
| TypeError (msg : string)
| AttributeError (msg : string).

Inductive result (A : Type) :=
| Ok (a : A)
| Raise (e : exn).
Arguments Ok {A} a.
Arguments Raise {A} e.

(** Stateful, fallible code: the state reached when an exception is
    raised is kept, as Python keeps the effects that precede a raise. *)
Definition M (S A : Type) : Type := S -> result A * S.

Definition ret {S A} (a : A) : M S A := fun s => (Ok a, s).
Definition raise {S A} (e : exn) : M S A := fun s => (Raise e, s).
Definition bind {S A B} (m : M S A) (k : A -> M S B) : M S B :=
  fun s => match m s with
           | (Ok a, s') => k a s'
           | (Raise e, s') => (Raise e, s')
           end.
Definition lift {S A} (r : result A) : M S A := fun s => (r, s).
Definition assert {S} (b : bool) (msg : string) : M S unit :=
  if b then ret tt else raise (AssertionError msg).

Notation "'do' x <- m ; k" := (bind m (fun x => k))
  (at level 10, x name, m at level 100, k at level 200).
Notation "'do' ' p <- m ; k" := (bind m (fun x => match x with p => k end))
  (at level 10, p pattern, m at level 100, k at level 200).
Notation "m ;; k" := (bind m (fun _ => k))
  (at level 100, k at level 200, right associativity).

Definition rbind {A B} (r : result A) (k : A -> result B) : result B :=
  match r with Ok a => k a | Raise e => Raise e end.

(** ** Built-ins used by the module *)

Definition str_eq (v : value) (s : string) : bool :=
  match v with VStr s' => String.eqb s' s | _ => false end.

Definition isinstance_dict (v : value) : bool :=
  match v with VDict _ => true | _ => false end.
Definition isinstance_list (v : value) : bool :=
  match v with VList _ => true | _ => false end.
Definition isinstance_str (v : value) : bool :=
  match v with VStr _ => true | _ => false end.
Definition isinstance_tuple (v : value) : bool :=
  match v with VTuple _ => true | _ => false end.
(** [bool] is a subclass of [int]. *)
Definition isinstance_int (v : value) : bool :=
  match v with VInt _ | VBool _ => true | _ => false end.

(** [len(v)] *)
Definition py_len (v : value) : result Z :=
  match v with
  | VStr s => Ok (Z.of_nat (String.length s))
  | VList l | VTuple l => Ok (Z.of_nat (List.length l))
  | VDict d => Ok (Z.of_nat (List.length d))
  | _ => Raise (TypeError "object has no len()")
  end.

(** ASCII whitespace as [str.split] and [int] see it. *)
Definition is_space (c : ascii) : bool :=
  let n := nat_of_ascii c in
  ((n =? 32) || ((9 <=? n) && (n <=? 13)) || ((28 <=? n) && (n <=? 31)))%nat.

(** [s.split()]: maximal runs of non-whitespace characters. *)
Fixpoint split_ws (cs cur : list ascii) : list (list ascii) :=
  match cs with
  | [] => match cur with [] => [] | _ => [rev cur] end
  | c :: cs' =>
      if is_space c
      then match cur with [] => split_ws cs' [] | _ => rev cur :: split_ws cs' [] end
      else split_ws cs' (c :: cur)
  end.

Definition str_split (s : string) : list string :=
  map string_of_list_ascii (split_ws (list_ascii_of_string s) []).

Fixpoint drop_space (cs : list ascii) : list ascii :=
  match cs with
  | c :: cs' => if is_space c then drop_space cs' else cs
  | [] => []
  end.

Definition digit_of (c : ascii) : option Z :=
  let n := Z.of_nat (nat_of_ascii c) in
  if (48 <=? n) && (n <=? 57) then Some (n - 48) else None.

(** Decimal digits, single underscores allowed between two digits. *)
Fixpoint parse_digits (cs : list ascii) (acc : Z) (after_digit : bool) : option Z :=
  match cs with
  | [] => if after_digit then Some acc else None
  | c :: cs' =>
      if Ascii.eqb c "_"
      then (if after_digit then parse_digits cs' acc false else None)
      else match digit_of c with
           | Some d => parse_digits cs' (10 * acc + d) true
           | None => None
           end
  end.

(** [int(s)] for a string: surrounding whitespace, an optional sign,
    decimal digits. *)
Definition int_of_string (s : string) : option Z :=
  let cs := rev (drop_space (rev (drop_space (list_ascii_of_string s)))) in
  match cs with
  | "-"%char :: ds => Z.opp <$> parse_digits ds 0 false
  | "+"%char :: ds => parse_digits ds 0 false
  | ds => parse_digits ds 0 false
  end.

(** [int(x)] for a float: truncation towards zero. *)
Definition int_of_float (q : Q) : Z := Z.quot (Qnum q) (Zpos (Qden q)).

(** [int(v)] *)
Definition py_int (v : value) : result Z :=
  match v with
  | VInt z => Ok z
  | VBool b => Ok (if b then 1 else 0)
  | VFloat q => Ok (int_of_float q)
  | VStr s => match int_of_string s with
              | Some z => Ok z
              | None => Raise (ValueError ("invalid literal for int() with base 10: '" +:+ s +:+ "'"))
              end
  | _ => Raise (TypeError "int() argument must be a string, a bytes-like object or a real number")
  end.

(** The items a [for] loop sees when it iterates over [v]. *)
Definition py_iter (v : value) : result (list value) :=
  match v with
  | VList l | VTuple l => Ok l
  | VDict d => Ok (map (fun kv => VStr (fst kv)) d)
  | VStr s => Ok (map (fun c => VStr (String c EmptyString)) (list_ascii_of_string s))
  | _ => Raise (TypeError "object is not iterable")
  end.

(** [l[i]] on a list: a negative index counts from the end. *)
Definition list_getitem {A} (l : list A) (i : Z) : result A :=
  let n := Z.of_nat (List.length l) in
  let j := if i <? 0 then i + n else i in
  if (0 <=? j) && (j <? n)
  then match l !! Z.to_nat j with
       | Some a => Ok a
       | None => Raise (IndexError "list index out of range")
       end
  else Raise (IndexError "list index out of range").

(** [d[k]] on a dict. *)
Fixpoint dict_get (d : dict) (k : string) : option value :=
  match d with
  | [] => None
  | (k', v) :: d' => if String.eqb k' k then Some v else dict_get d' k
  end.

(** ** Images (the part of PIL the module uses, mode RGB) *)

Definition pixel := (Z * Z * Z)%type.
Definition black : pixel := (0, 0, 0).

Record Image := { width : Z; height : Z; rows : list (list pixel) }.

Definition wf_image (im : Image) : Prop :=
  0 <= width im /\ 0 <= height im /\
  List.length (rows im) = Z.to_nat (height im) /\
  Forall (fun r => List.length r = Z.to_nat (width im)) (rows im).

(** [Image.new('RGB', size, color)] *)
Definition Image_new (size : Z * Z) (color : pixel) : result Image :=
  let '(w, h) := size in
  if (w <? 0) || (h <? 0)
  then Raise (ValueError "Width and height must be >= 0")
  else Ok {| width := w; height := h;
             rows := replicate (Z.to_nat h) (replicate (Z.to_nat w) color) |}.

Definition getpixel (im : Image) (x y : Z) : option pixel :=
  if (0 <=? x) && (x <? width im) && (0 <=? y) && (y <? height im)
  then match rows im !! Z.to_nat y with
       | Some row => row !! Z.to_nat x
       | None => None
       end
  else None.

(** [im.paste(src, box)] with a two-coordinate box: the pixels of [src]
    overwrite those of [im] from [box] on, clipped to [im]. *)
Definition paste (im src : Image) (box : Z * Z) : Image :=
  let '(ox, oy) := box in
  {| width := width im; height := height im;
     rows := imap (fun y row =>
               imap (fun x p => default p (getpixel src (Z.of_nat x - ox) (Z.of_nat y - oy)))
                    row) (rows im) |}.

(** [copy.deepcopy(image)]: images are values here, the copy is equal
    to its source and independent of it. *)
Definition deepcopy (im : Image) : Image := im.

(** ** Random generators

    Python's [random] module and NumPy's global generator are two
    independent sources. Each is the stream of raw outputs it will
    deliver; a draw reads the head and moves on. *)

Record RandomState := { py_stream : nat -> Z; np_stream : nat -> Z }.

Definition two53 : positive := 9007199254740992.

(** [random.random()]: a multiple of 2^-53 in [0, 1). *)
Definition random_random : M RandomState Q :=
  fun rs => (Ok (Qmake (py_stream rs 0%nat mod Zpos two53) two53),
             {| py_stream := fun n => py_stream rs (S n); np_stream := np_stream rs |}).

(** [random.uniform(a, b)] is [a + (b - a) * random()]. *)
Definition random_uniform (a b : Q) : M RandomState Q :=
  do u <- random_random; ret (a + (b - a) * u)%Q.

(** [np.random.randint(low, high)]: an integer of [low, high). *)
Definition np_random_randint (low high : Z) : M RandomState Z :=
  fun rs =>
    if low >=? high then (Raise (ValueError "low >= high"), rs)
    else (Ok (low + np_stream rs 0%nat mod (high - low)),
          {| py_stream := py_stream rs; np_stream := fun n => np_stream rs (S n) |}).

(** ** class Cutout *)

Module Cutout.

Record t := {
  n_holes : Z;
  length : Z;
  ratio : Q;
  h_range : option (Z * Z);
  w_range : option (Z * Z);
  prob : Q
}.

Definition __init__ (n_holes length : Z) (ratio : Q)
    (h_range w_range : option (Z * Z)) (prob : Q) : t :=
  {| n_holes := n_holes; length := length; ratio := ratio;
     h_range := h_range; w_range := w_range; prob := prob |}.

(** The body of [for n in range(self.n_holes)]. *)
Definition hole (self : t) (mask : Image) (h w : Z * Z) (img : Image)
  : M RandomState Image :=
  do y <- np_random_randint (fst h) (snd h);
  do x <- np_random_randint (fst w) (snd w);
  let x1 := Z.max 0 (x - length self / 2) in
  let y1 := Z.max 0 (y - length self / 2) in
  ret (paste img mask (x1, y1)).

Fixpoint holes (self : t) (mask : Image) (h w : Z * Z) (n : nat) (img : Image)
  : M RandomState Image :=
  match n with
  | O => ret img
  | S n' => do img' <- hole self mask h w img; holes self mask h w n' img'
  end.

Definition __call__ (self : t) (image : Image) : M RandomState Image :=
  do u <- random_random;
  if negb (Qle_bool u (prob self)) then ret image
  else
    let img := deepcopy image in
    let h := default (0, height img) (h_range self) in
    let w := default (0, width img) (w_range self) in
    do U <- random_uniform (1 - ratio self)%Q (1 + ratio self)%Q;
    let mask_w := int_of_float (U * inject_Z (length self))%Q in
    let mask_h := length self in
    do mask <- lift (Image_new (mask_w, mask_h) black);
    holes self mask h w (Z.to_nat (n_holes self)) img.

End Cutout.

(** ** class PadIfNeed *)

Module PadIfNeed.

Record t := { pad_value : value; mode : value }.

Definition __init__ (pad_value mode : value) : result t :=
  rbind (if isinstance_int pad_value
         then Ok (VTuple [pad_value; pad_value; pad_value])
         else rbind (py_len pad_value) (fun n =>
                if n =? 3 then Ok pad_value
                else Raise (AssertionError "pad_value 只能是三维向量或int")))
    (fun pad_value =>
       if str_eq mode "edge" || str_eq mode "average"
       then Ok {| pad_value := pad_value; mode := mode |}
       else Raise (AssertionError "mode 只能edge[填一端]和average[填两端]")).

Section Call.

(** How PIL reads a colour argument for an RGB image. *)
Variable getcolor : value -> result pixel.

Definition __call__ (self : t) (image : Image) : result Image :=
  let '(w, h) := (width image, height image) in
  let max_size := Z.max w h in
  rbind (getcolor (pad_value self)) (fun color =>
  rbind (Image_new (max_size, max_size) color) (fun new_im =>
  if str_eq (mode self) "average"
  then Ok (paste new_im image ((max_size - w) / 2, (max_size - h) / 2))
  else Ok (paste new_im image (max_size - w, max_size - h)))).

End Call.

End PadIfNeed.

(** ** class CutAddNoise (construction) *)

Fixpoint take_while {A} (f : A -> bool) (l : list A) : list A :=
  match l with
  | a :: l' => if f a then a :: take_while f l' else []
  | [] => []
  end.

(** [os.path.splitext(path)[-1]]: the extension of the last component,
    from its last dot on, unless only dots precede that dot. *)
Definition splitext_ext (path : string) : string :=
  let rb := take_while (fun c => negb (Ascii.eqb c "/")) (rev (list_ascii_of_string path)) in
  let ext := take_while (fun c => negb (Ascii.eqb c ".")) rb in
  match drop (List.length ext) rb with
  | [] => ""
  | _dot :: stem =>
      if forallb (fun c => Ascii.eqb c ".") stem then ""
      else string_of_list_ascii ("."%char :: rev ext)
  end.

(** Whether [name] ends in [.jpg]. *)
Definition ends_with_jpg (name : string) : bool :=
  match rev (list_ascii_of_string name) with
  | "g"%char :: "p"%char :: "j"%char :: "."%char :: _ => true
  | _ => false
  end.

(** [fnmatch(name, '*.jpg')] as [glob] applies it: names that start
    with a dot are hidden from a pattern that does not. *)
Definition matches_jpg (name : string) : bool :=
  match list_ascii_of_string name with
  | "."%char :: _ => false
  | _ => ends_with_jpg name
  end.

Module CutAddNoise.

Record t := {
  n_holes : value;
  length : value;
  h_range : value;
  w_range : value;
  prob : value;
  noisy : list string
}.

Section Init.

(** The entries of a directory; a directory that does not exist has none. *)
Variable listdir : string -> list string.

(** [glob.glob(f'{noisy_src}/*.jpg')], for a source path that holds no
    wildcard of its own. *)
Definition glob_jpg (noisy_src : string) : list string :=
  map (fun name => noisy_src +:+ "/" +:+ name) (List.filter matches_jpg (listdir noisy_src)).

Definition __init__ (n_holes length : value) (noisy_src : string)
    (h_range w_range prob : value) : result t :=
  let noisy := glob_jpg noisy_src in
  rbind (list_getitem noisy 0) (fun first =>
    if String.eqb (splitext_ext first) ".jpg"
    then Ok {| n_holes := n_holes; length := length; h_range := h_range;
               w_range := w_range; prob := prob; noisy := noisy |}
    else Raise (AssertionError "only support .jpg")).

End Init.

End CutAddNoise.

(** ** The heap of transform objects *)

Record object := { cls : string; attrs : dict }.

(** Calling a class: a new object, never one that exists already. *)
Definition new (cls : string) (attrs : dict) : M (list object) value :=
  fun h => (Ok (VObj (List.length h)), h ++ [{| cls := cls; attrs := attrs |}]).

(** A function object: its name and what a call does. *)
Record pyfun := {
  __name__ : string;
  __call__ : list value -> dict -> M (list object) value
}.

Record interp := { AUG_METHODS : gmap string pyfun; heap : list object }.

Definition on_heap {A} (m : M (list object) A) : M interp A :=
  fun st => let '(r, h) := m (heap st) in
            (r, {| AUG_METHODS := AUG_METHODS st; heap := h |}).

(** [AUG_METHODS[key]] *)
Definition AUG_METHODS_getitem (key : string) : M interp pyfun :=
  fun st => match AUG_METHODS st !! key with
            | Some fn => (Ok fn, st)
            | None => (Raise (KeyError key), st)
            end.

Definition call (fn : pyfun) (args : list value) (kwargs : dict) : M interp value :=
  on_heap (__call__ fn args kwargs).

(** [obj.name] *)
Definition getattr (v : value) (name : string) : M interp value :=
  fun st => match v with
            | VObj r => match heap st !! r with
                        | Some o => match dict_get (attrs o) name with
                                    | Some a => (Ok a, st)
                                    | None => (Raise (AttributeError name), st)
                                    end
                        | None => (Raise (AttributeError name), st)
                        end
            | _ => (Raise (AttributeError name), st)
            end.

(** [v[i]] *)
Definition getitem (v : value) (i : Z) : result value :=
  match v with
  | VList l | VTuple l => list_getitem l i
  | _ => Raise (TypeError "object is not subscriptable")
  end.

(** ** The registry *)

Definition register_method (fn : pyfun) : M interp pyfun :=
  fun st =>
    let key := __name__ fn in
    match AUG_METHODS st !! key with
    | Some _ =>
        (Raise (ValueError ("An entry is already registered under the name '" +:+ key +:+ "'.")), st)
    | None =>
        let wrapper := {| __name__ := __name__ fn;
                          __call__ := fun args kwargs => __call__ fn args kwargs |} in
        (Ok wrapper, {| AUG_METHODS := <[key := fn]> (AUG_METHODS st); heap := heap st |})
    end.

(** ** The configuration compiler *)

Definition addAugToSequence (aug_name : string) (params : value) (aug_list : list value)
  : M interp (list value) :=
  if str_eq params "no_params" then
    do fn <- AUG_METHODS_getitem aug_name;
    do t <- call fn [] [];
    ret (aug_list ++ [t])
  else
    assert (isinstance_dict params) "参数必须以键值对[dict]的形式传进来" ;;
    do fn <- AUG_METHODS_getitem aug_name;
    do t <- call fn [] (match params with VDict d => d | _ => [] end);
    ret (aug_list ++ [t]).

(** The one item of [choice], which the loop unpacks into [choice_key]
    and [choice_param] after asserting that [choice] is a dict of
    length one. *)
Definition single_item (choice : value) : option (string * value) :=
  match choice with
  | VDict [(k, v)] => Some (k, v)
  | _ => None
  end.

(** [for choice in augments[key]] *)
Fixpoint choices (n_params : nat) (cs : list value) (choice_aug_list : list value)
  : M interp (list value) :=
  match cs with
  | [] => ret choice_aug_list
  | choice :: cs' =>
      match single_item choice with
      | Some (choice_key, choice_param) =>
          do l <- addAugToSequence choice_key choice_param choice_aug_list;
          choices n_params cs' l
      | None =>
          raise (AssertionError ("random_choice中每个增强方法都要求是字典 这里" +:+ pretty n_params
                                 +:+ "个增强需要包装成" +:+ pretty n_params +:+ "个字典"))
      end
  end.

(** [T.Compose(augs)] keeps the list it is given as [transforms]. *)
Definition Compose (transforms : list value) : M interp value :=
  on_heap (new "Compose" [("transforms", VList transforms)]).

(** [for key, params in augments.items()] *)
Fixpoint entries (augments : dict) (items : dict) (augs : list value)
  : M interp (list value) :=
  match items with
  | [] => ret augs
  | (key, params) :: items' =>
      if String.eqb key "random_choice" then
        assert (isinstance_list params) "random_choice必须要把增强方法写成列表形式传进来" ;;
        do cs <- match dict_get augments key with
                 | Some v => lift (py_iter v)
                 | None => raise (KeyError key)
                 end;
        do choice_aug_list <- choices (match params with VList l => List.length l | _ => O end) cs [];
        do fn <- AUG_METHODS_getitem key;
        do t <- call fn [VList choice_aug_list] [];
        entries augments items' (augs ++ [t])
      else
        do augs' <- addAugToSequence key params augs;
        entries augments items' augs'
  end.

Definition create_AugTransforms (augments : dict) : M interp value :=
  do augs <- entries augments augments [];
  Compose augs.

(** ** class BaseClassWiseAugmenter (construction) *)

(** [if isinstance(t, str): t = t.split()] *)
Definition split_if_str (t : value) : value :=
  match t with
  | VStr s => VList (map VStr (str_split s))
  | _ => t
  end.

Module BaseClassWiseAugmenter.

Record t := {
  base_transforms : value;
  class_transforms : option (gmap string value)
}.

(** [for i in t: transform.append(self.base_transforms.transforms[int(i)])] *)
Fixpoint select (base : value) (t : list value) (transform : list value)
  : M interp (list value) :=
  match t with
  | [] => ret transform
  | i :: t' =>
      do ts <- getattr base "transforms";
      do n <- lift (py_int i);
      do s <- lift (getitem ts n);
      select base t' (transform ++ [s])
  end.

(** [for c, t in class_transforms_mapping.items()] *)
Fixpoint classes (base : value) (items : dict) (class_transforms : gmap string value)
  : M interp (gmap string value) :=
  match items with
  | [] => ret class_transforms
  | (c, t) :: items' =>
      let t := split_if_str t in
      do l <- lift (py_iter t);
      do transform <- select base l [];
      do p <- Compose transform;
      classes base items' (<[c := p]> class_transforms)
  end.

Definition __init__ (base_transforms : dict) (class_transforms_mapping : option dict)
  : M interp t :=
  do base <- create_AugTransforms base_transforms;
  match class_transforms_mapping with
  | Some mapping =>
      do class_transforms <- classes base mapping ∅;
      ret {| base_transforms := base; class_transforms := Some class_transforms |}
  | None =>
      ret {| base_transforms := base; class_transforms := None |}
  end.

End BaseClassWiseAugmenter.

(** ** The registered factories *)

(** A parameter of a [def]: its name and its default, if it has one. *)
Definition param := (string * option value)%type.

Fixpoint bind_positional (fname : string) (sig : list param) (args : list value)
  : result (dict * list param) :=
  match args, sig with
  | [], _ => Ok ([], sig)
  | a :: args', (n, _) :: sig' =>
      rbind (bind_positional fname sig' args') (fun '(b, rest) => Ok ((n, a) :: b, rest))
  | _ :: _, [] => Raise (TypeError (fname +:+ "() takes fewer positional arguments than were given"))
  end.

Fixpoint bind_keywords (fname : string) (sig : list param) (kwargs : dict) : result dict :=
  match sig with
  | [] => Ok []
  | (n, d) :: sig' =>
      match dict_get kwargs n, d with
      | Some v, _ | None, Some v =>
          rbind (bind_keywords fname sig' kwargs) (fun b => Ok ((n, v) :: b))
      | None, None =>
          Raise (TypeError (fname +:+ "() missing 1 required positional argument: '" +:+ n +:+ "'"))
      end
  end.

Definition has_key (k : string) (d : list (string * option value)) : bool :=
  existsb (fun p => String.eqb (fst p) k) d.

(** Binding the arguments of a call to the parameters of a [def]
    without [*args] or [**kwargs]. *)
Definition bind_params (fname : string) (sig : list param) (args : list value) (kwargs : dict)
  : result dict :=
  rbind (bind_positional fname sig args) (fun '(b, rest) =>
    match List.find (fun kv => negb (has_key (fst kv) rest)) kwargs with
    | Some (k, _) =>
        if has_key k sig
        then Raise (TypeError (fname +:+ "() got multiple values for argument '" +:+ k +:+ "'"))
        else Raise (TypeError (fname +:+ "() got an unexpected keyword argument '" +:+ k +:+ "'"))
    | None => rbind (bind_keywords fname rest kwargs) (fun b' => Ok (b ++ b'))
    end).

(** [def name(sig): body] *)
Definition def (name : string) (sig : list param) (body : dict -> M (list object) value)
  : pyfun :=
  {| __name__ := name;
     __call__ := fun args kwargs => do b <- lift (bind_params name sig args kwargs); body b |}.

(** The value a bound parameter holds. *)
Definition arg (b : dict) (n : string) : value := default VNone (dict_get b n).

(** A torchvision class called with these arguments. The checks the
    library makes on them are its own and are not described here: the
    object is created and records the arguments. *)
Definition T (cls : string) (args : list value) (kwargs : dict) : M (list object) value :=
  new cls (match args with [] => kwargs | _ => ("*args", VTuple args) :: kwargs end).

Definition BILINEAR : value := VStr "InterpolationMode.BILINEAR".

(** A first parameter followed by [*args, **kwargs]. *)
Definition bind_first (fname n : string) (d : option value) (args : list value) (kwargs : dict)
  : result (value * list value * dict) :=
  match args with
  | a :: args' =>
      if has_key n (map (fun kv => (fst kv, Some (snd kv))) kwargs)
      then Raise (TypeError (fname +:+ "() got multiple values for argument '" +:+ n +:+ "'"))
      else Ok (a, args', kwargs)
  | [] =>
      match dict_get kwargs n, d with
      | Some v, _ | None, Some v =>
          Ok (v, [], List.filter (fun kv => negb (String.eqb (fst kv) n)) kwargs)
      | None, None =>
          Raise (TypeError (fname +:+ "() missing 1 required positional argument: '" +:+ n +:+ "'"))
      end
  end.

Section Factories.

Variable listdir : string -> list string.

(** Python's [eval] on a string of the configuration, read as an
    expression without effects. *)
Variable eval : string -> result value.

Definition random_cutout : pyfun :=
  def "random_cutout"
    [("n_holes", Some (VInt 1)); ("length", Some (VInt 200)); ("ratio", Some (VFloat (2 # 10)));
     ("h_range", Some VNone); ("w_range", Some VNone); ("prob", Some (VFloat (5 # 10)))]
    (fun b => new "Cutout"
       [("n_holes", arg b "n_holes"); ("length", arg b "length"); ("ratio", arg b "ratio");
        ("h_range", arg b "h_range"); ("w_range", arg b "w_range"); ("prob", arg b "prob")]).

(** The f-string [f'{noisy_src}'] for the values the annotation
    [noisy_src: str = None] admits and for integers; other values are
    refused here. *)
Definition format_noisy_src (v : value) : result string :=
  match v with
  | VStr s => Ok s
  | VNone => Ok "None"
  | VInt z => Ok (pretty z)
  | VBool b => Ok (if b then "True" else "False")
  | _ => Raise (TypeError "noisy_src: str")
  end.

Definition random_cutaddnoise : pyfun :=
  def "random_cutaddnoise"
    [("n_holes", Some (VInt 1)); ("length", Some (VInt 200)); ("noisy_src", Some VNone);
     ("h_range", Some VNone); ("w_range", Some VNone); ("prob", Some (VFloat (5 # 10)))]
    (fun b =>
       do src <- lift (format_noisy_src (arg b "noisy_src"));
       do self <- lift (CutAddNoise.__init__ listdir (arg b "n_holes") (arg b "length") src
                          (arg b "h_range") (arg b "w_range") (arg b "prob"));
       new "CutAddNoise"
         [("n_holes", CutAddNoise.n_holes self); ("length", CutAddNoise.length self);
          ("h_range", CutAddNoise.h_range self); ("w_range", CutAddNoise.w_range self);
          ("prob", CutAddNoise.prob self); ("noisy", VList (map VStr (CutAddNoise.noisy self)))]).

Definition color_jitter : pyfun :=
  def "color_jitter"
    [("brightness", Some (VFloat (1 # 10))); ("contrast", Some (VFloat (1 # 10)));
     ("saturation", Some (VFloat (1 # 10))); ("hue", Some (VFloat (1 # 10)))]
    (fun b => T "ColorJitter" []
       [("brightness", arg b "brightness"); ("contrast", arg b "contrast");
        ("saturation", arg b "saturation"); ("hue", arg b "hue")]).

Definition random_autocontrast : pyfun :=
  def "random_autocontrast" [("p", Some (VFloat (5 # 10)))]
    (fun b => T "RandomAutocontrast" [] [("p", arg b "p")]).

Definition random_adjustsharpness : pyfun :=
  def "random_adjustsharpness" [("sharpness_factor", Some (VInt 2)); ("p", Some (VFloat (5 # 10)))]
    (fun b => T "RandomAdjustSharpness" [arg b "sharpness_factor"] [("p", arg b "p")]).

Definition random_invert : pyfun :=
  def "random_invert" [("p", Some (VFloat (5 # 10)))]
    (fun b => T "RandomInvert" [] [("p", arg b "p")]).

Definition random_equalize : pyfun :=
  def "random_equalize" [("p", Some (VFloat (5 # 10)))]
    (fun b => T "RandomEqualize" [] [("p", arg b "p")]).

Definition random_augmix : pyfun :=
  {| __name__ := "random_augmix"; __call__ := fun args kwargs => T "AugMix" args kwargs |}.

Definition random_crop : pyfun :=
  {| __name__ := "random_crop"; __call__ := fun args kwargs => T "RandomCrop" args kwargs |}.

(** [RandomColorJitter(prob=prob, *args, **kwargs)]: a positional
    argument would be a second value for [prob]. *)
Definition random_color_jitter : pyfun :=
  {| __name__ := "random_color_jitter";
     __call__ := fun args kwargs =>
       do '(prob, args', kwargs') <-
         lift (bind_first "random_color_jitter" "prob" (Some (VFloat (5 # 10))) args kwargs);
       match args' with
       | [] => new "RandomColorJitter" (kwargs' ++ [("prob", prob)])
       | _ => raise (TypeError "__init__() got multiple values for argument 'prob'")
       end |}.

Definition random_horizonflip : pyfun :=
  def "random_horizonflip" [("p", Some (VFloat (5 # 10)))]
    (fun b => T "RandomHorizontalFlip" [] [("p", arg b "p")]).

Definition random_verticalflip : pyfun :=
  def "random_verticalflip" [("p", Some (VFloat (5 # 10)))]
    (fun b => T "RandomVerticalFlip" [] [("p", arg b "p")]).

Definition random_rotate : pyfun :=
  def "random_rotate" [("degrees", None)]
    (fun b => T "RandomRotation" [] [("degrees", arg b "degrees"); ("interpolation", BILINEAR)]).

Definition to_tensor : pyfun :=
  def "to_tensor" [] (fun _ => T "ToTensor" [] []).

Definition to_tensor_without_div : pyfun :=
  def "to_tensor_without_div" []
    (fun _ => do p <- T "PILToTensor" [] []; new "PILToTensorNoDiv" [("pil2tensor", p)]).

Definition tuple_or_eval (v : value) : result value :=
  if isinstance_tuple v then Ok v
  else match v with
       | VStr s => eval s
       | _ => Raise (TypeError "eval() arg 1 must be a string, bytes or code object")
       end.

Definition normalize : pyfun :=
  def "normalize"
    [("mean", Some (VTuple [VFloat (485 # 1000); VFloat (456 # 1000); VFloat (406 # 1000)]));
     ("std", Some (VTuple [VFloat (229 # 1000); VFloat (224 # 1000); VFloat (225 # 1000)]))]
    (fun b =>
       do mean <- lift (tuple_or_eval (arg b "mean"));
       do std <- lift (tuple_or_eval (arg b "std"));
       T "Normalize" [] [("mean", mean); ("std", std)]).

Definition random_augment : pyfun :=
  def "random_augment"
    [("num_ops", Some (VInt 2)); ("magnitude", Some (VInt 9)); ("num_magnitude_bins", Some (VInt 31))]
    (fun b => T "RandAugment" []
       [("num_ops", arg b "num_ops"); ("magnitude", arg b "magnitude");
        ("num_magnitude_bins", arg b "num_magnitude_bins")]).

Definition center_crop : pyfun :=
  def "center_crop" [("size", None)]
    (fun b => T "CenterCrop" [] [("size", arg b "size")]).

Definition resize : pyfun :=
  def "resize" [("size", Some (VInt 224))]
    (fun b => T "Resize" [] [("size", arg b "size"); ("interpolation", BILINEAR)]).

Definition centercrop_resize : pyfun :=
  def "centercrop_resize" [("center_size", None); ("re_size", None)]
    (fun b =>
       do c <- T "CenterCrop" [arg b "center_size"] [];
       do r <- T "Resize" [arg b "re_size"] [("interpolation", BILINEAR)];
       new "CenterCropAndResize" [("0", c); ("1", r)]).

Definition random_affine : pyfun :=
  def "random_affine"
    [("degrees", Some (VFloat 0)); ("translate", Some (VFloat 0)); ("scale", Some (VFloat 0));
     ("shear", Some (VFloat 0)); ("fill", Some (VInt 0)); ("center", Some VNone)]
    (fun b => T "RandomAffine" []
       [("degrees", arg b "degrees"); ("translate", arg b "translate"); ("scale", arg b "scale");
        ("shear", arg b "shear"); ("fill", arg b "fill"); ("center", arg b "center")]).

Definition random_gaussianblur : pyfun :=
  def "random_gaussianblur"
    [("prob", Some (VFloat (5 # 10))); ("kernel_size", Some (VInt 3));
     ("sigma", Some (VTuple [VFloat (1 # 10); VFloat 2]))]
    (fun b =>
       do g <- T "GaussianBlur" [] [("kernel_size", arg b "kernel_size"); ("sigma", arg b "sigma")];
       T "RandomApply" [VList [g]] [("p", arg b "prob")]).

Definition random_grayscale : pyfun :=
  def "random_grayscale" [("p", Some (VFloat (5 # 10)))]
    (fun b => T "RandomGrayscale" [] [("p", arg b "p")]).

(** [T.RandomResizedCrop(size = size, *args, **kwargs)]: a positional
    argument would be a second value for [size]. *)
Definition random_crop_and_resize : pyfun :=
  {| __name__ := "random_crop_and_resize";
     __call__ := fun args kwargs =>
       do '(size, args', kwargs') <-
         lift (bind_first "random_crop_and_resize" "size" None args kwargs);
       match args' with
       | [] => T "RandomResizedCrop" [] (("size", size) :: kwargs')
       | _ => raise (TypeError "__init__() got multiple values for argument 'size'")
       end |}.

Definition pad2square : pyfun :=
  def "pad2square" [("pad_value", Some (VInt 0)); ("mode", Some (VStr "average"))]
    (fun b =>
       do self <- lift (PadIfNeed.__init__ (arg b "pad_value") (arg b "mode"));
       new "PadIfNeed" [("pad_value", PadIfNeed.pad_value self); ("mode", PadIfNeed.mode self)]).

Definition random_choice : pyfun :=
  def "random_choice" [("transforms", None)]
    (fun b => T "RandomChoice" [] [("transforms", arg b "transforms")]).

(** The decorated functions, in the order the module defines them. *)
Definition decorated : list pyfun :=
  [random_cutout; random_cutaddnoise; color_jitter; random_autocontrast;
   random_adjustsharpness; random_invert; random_equalize; random_augmix; random_crop;
   random_color_jitter; random_horizonflip; random_verticalflip; random_rotate; to_tensor;
   to_tensor_without_div; normalize; random_augment; center_crop; resize; centercrop_resize;
   random_affine; random_gaussianblur; random_grayscale; random_crop_and_resize; pad2square;
   random_choice].

(** Importing the module: [AUG_METHODS = {}], then one
    [@register_method] after the other. *)
Fixpoint register_all (fns : list pyfun) : M interp unit :=
  match fns with
  | [] => ret tt
  | fn :: fns' => do _ <- register_method fn; register_all fns'
  end.

Definition import_module : result unit * interp :=
  register_all decorated {| AUG_METHODS := ∅; heap := [] |}.

End Factories.

(** ** Vocabulary of the statements *)

(** *** Vocabulary for square padding *)

(** [src] sits in [out] with its top-left corner at [(ox, oy)], and
    every other pixel of [out] has the colour [fill]. *)
Definition pasted_at (out src : Image) (fill : pixel) (ox oy : Z) : Prop :=
  (∀ x y, 0 <= x < width src → 0 <= y < height src →
          getpixel out (ox + x) (oy + y) = getpixel src x y) ∧
  (∀ x y, 0 <= x < width out → 0 <= y < height out →
          ¬ (ox <= x < ox + width src ∧ oy <= y < oy + height src) →
          getpixel out x y = Some fill).

(** *** Vocabulary for the patch cutout *)

(** The first draw of Python's generator, which decides whether the
    transform is applied. *)
Definition gate (rs : RandomState) : Q :=
  Qmake (py_stream rs 0%nat mod Zpos two53) two53.

(** The factor of the mask's width: the one [random.uniform] draw of a call. *)
Definition width_factor (self : Cutout.t) (rs : RandomState) : Q :=
  ((1 - Cutout.ratio self) + ((1 + Cutout.ratio self) - (1 - Cutout.ratio self))
     * Qmake (py_stream rs 1%nat mod Zpos two53) two53)%Q.

Definition mask_w (self : Cutout.t) (rs : RandomState) : Z :=
  int_of_float (width_factor self rs * inject_Z (Cutout.length self))%Q.

Definition sample_h (self : Cutout.t) (image : Image) : Z * Z :=
  default (0, height image) (Cutout.h_range self).
Definition sample_w (self : Cutout.t) (image : Image) : Z * Z :=
  default (0, width image) (Cutout.w_range self).

(** The centres [(x, y)] the loop samples from NumPy's stream [np]:
    [y] first, then [x], hole after hole. *)
Fixpoint centers (h w : Z * Z) (n : nat) (np : nat -> Z) : list (Z * Z) :=
  match n with
  | O => []
  | S n' => (fst w + np 1%nat mod (snd w - fst w), fst h + np 0%nat mod (snd h - fst h))
              :: centers h w n' (fun k => np (S (S k)))
  end.

(** The top-left corner of the hole centred at [c]. *)
Definition corner (self : Cutout.t) (c : Z * Z) : Z * Z :=
  (Z.max 0 (fst c - Cutout.length self / 2), Z.max 0 (snd c - Cutout.length self / 2)).

Definition corners (self : Cutout.t) (image : Image) (rs : RandomState) : list (Z * Z) :=
  map (corner self)
      (centers (sample_h self image) (sample_w self image)
               (Z.to_nat (Cutout.n_holes self)) (np_stream rs)).

(** [(x, y)] lies in the rectangle of size [mw] by [mh] whose top-left
    corner is [c]. *)
Definition covers (mw mh x y : Z) (c : Z * Z) : bool :=
  (fst c <=? x) && (x <? fst c + mw) && (snd c <=? y) && (y <? snd c + mh).

Definition under_hole (self : Cutout.t) (image : Image) (rs : RandomState) (x y : Z) : bool :=
  existsb (covers (mask_w self rs) (Cutout.length self) x y) (corners self image rs).

(** The patch cutout as the specification words it: every hole draws
    a width factor of its own. *)
Definition Cutout_spec_hole (self : Cutout.t) (h w : Z * Z) (img : Image)
  : M RandomState Image :=
  do y <- np_random_randint (fst h) (snd h);
  do x <- np_random_randint (fst w) (snd w);
  do U <- random_uniform (1 - Cutout.ratio self)%Q (1 + Cutout.ratio self)%Q;
  do mask <- lift (Image_new (int_of_float (U * inject_Z (Cutout.length self))%Q,
                              Cutout.length self) black);
  ret (paste img mask (Z.max 0 (x - Cutout.length self / 2),
                       Z.max 0 (y - Cutout.length self / 2))).

Fixpoint Cutout_spec_holes (self : Cutout.t) (h w : Z * Z) (n : nat) (img : Image)
  : M RandomState Image :=
  match n with
  | O => ret img
  | S n' => do img' <- Cutout_spec_hole self h w img; Cutout_spec_holes self h w n' img'
  end.

Definition Cutout_spec_call (self : Cutout.t) (image : Image) : M RandomState Image :=
  do u <- random_random;
  if negb (Qle_bool u (Cutout.prob self)) then ret image
  else Cutout_spec_holes self (sample_h self image) (sample_w self image)
         (Z.to_nat (Cutout.n_holes self)) (deepcopy image).

(** *** Vocabulary for pipelines *)

(** The steps of the pipeline [p], read from its [transforms] attribute. *)
Definition steps_of (st : interp) (p : value) : list value :=
  match fst (getattr p "transforms" st) with
  | Ok (VList l) => l
  | _ => []
  end.

(** The keyword arguments a parameter entry stands for. *)
Definition kwargs_of (params : value) : option dict :=
  if str_eq params "no_params" then Some []
  else match params with VDict d => Some d | _ => None end.

(** [step] is what the factory registered as [name] returned when it
    was called with these arguments, on some heap. *)
Definition made_by (reg : gmap string pyfun) (name : string)
    (args : list value) (kwargs : dict) (step : value) : Prop :=
  ∃ fn h h', reg !! name = Some fn ∧ __call__ fn args kwargs h = (Ok step, h').

Definition made_from (reg : gmap string pyfun) (name : string) (params : value)
    (step : value) : Prop :=
  ∃ kwargs, kwargs_of params = Some kwargs ∧ made_by reg name [] kwargs step.

(** How the step of a configuration entry comes about: an ordinary
    entry calls its factory; a [random_choice] entry calls the factory
    of each of its candidates, then the [random_choice] factory on the
    list of the candidates built. *)
Inductive built (reg : gmap string pyfun) : string * value -> value -> Prop :=
| built_plain name params step :
    name ≠ "random_choice" →
    made_from reg name params step →
    built reg (name, params) step
| built_choice cs cands step :
    Forall2 (λ c cand, ∃ k v, c = VDict [(k, v)] ∧ made_from reg k v cand) cs cands →
    made_by reg "random_choice" [VList cands] [] step →
    built reg ("random_choice", VList cs) step.

(** The factory registered as [name] exists and accepts these arguments. *)
Definition callable (reg : gmap string pyfun) (name : string)
    (args : list value) (kwargs : dict) : Prop :=
  ∃ fn, reg !! name = Some fn ∧ ∀ h, ∃ v h', __call__ fn args kwargs h = (Ok v, h').

Definition plain_ok (reg : gmap string pyfun) (name : string) (params : value) : Prop :=
  ∃ kwargs, kwargs_of params = Some kwargs ∧ callable reg name [] kwargs.

(** A configuration entry that compiles. *)
Definition entry_ok (reg : gmap string pyfun) (entry : string * value) : Prop :=
  if String.eqb (fst entry) "random_choice"
  then ∃ cs, snd entry = VList cs ∧
             Forall (λ c, ∃ k v, c = VDict [(k, v)] ∧ plain_ok reg k v) cs ∧
             ∀ cands, callable reg "random_choice" [VList cands] []
  else plain_ok reg (fst entry) (snd entry).

(** A computation that leaves the registry as it found it. *)
Definition frame {A} (m : M interp A) : Prop :=
  ∀ st, AUG_METHODS (snd (m st)) = AUG_METHODS st.

(** *** Vocabulary for the class-wise dispatcher *)

(** Every item of the mapping value [t] is an integer that indexes a
    list of [n] steps, from the front or, when negative, from the end. *)
Definition valid_indices (n : nat) (t : value) : Prop :=
  ∃ l, py_iter (split_if_str t) = Ok l ∧
       Forall (λ v, ∃ i, py_int v = Ok i ∧ - Z.of_nat n <= i < Z.of_nat n) l.

(** [picked] are the steps of [steps] at the indices the items [l] denote. *)
Definition picks (steps : list value) (l picked : list value) : Prop :=
  Forall2 (λ v s, ∃ i, py_int v = Ok i ∧ list_getitem steps i = Ok s) l picked.

(** A call of [fn] that returns, returns an object it has just created
    and only adds to the heap. *)
Definition fresh_call (fn : pyfun) : Prop :=
  ∀ args kwargs h v h',
    __call__ fn args kwargs h = (Ok v, h') →
    ∃ r ext, v = VObj r ∧ h' = h ++ ext ∧ (length h <= r < length h')%nat.

Definition fresh_registry (reg : gmap string pyfun) : Prop :=
  ∀ name fn, reg !! name = Some fn → fresh_call fn.

(** The same for a computation on the heap. *)
Definition fresh_m (m : M (list object) value) : Prop :=
  ∀ h v h', m h = (Ok v, h') →
    ∃ r ext, v = VObj r ∧ h' = h ++ ext ∧ (length h <= r < length h')%nat.

(** The default pipeline [base], with these steps, is in the heap. *)
Definition holds_base (base : ref) (steps : list value) (st : interp) : Prop :=
  heap st !! base = Some {| cls := "Compose"; attrs := [("transforms", VList steps)] |}.

(** ** Sample inputs *)

Definition stream_of (l : list Z) : nat -> Z := fun n => nth n l 0.

Definition white : pixel := (255, 255, 255).

Definition solid (w h : nat) (c : pixel) : Image :=
  {| width := Z.of_nat w; height := Z.of_nat h; rows := replicate h (replicate w c) |}.

(** Two holes of side 4, width jitter 1/2, always applied. *)
Definition two_holes : Cutout.t :=
  Cutout.__init__ 2 4 (1 # 2) None None 1.

(** Python's generator delivers 0, 0, 1/2; NumPy's delivers the
    centres (2, 2) and (6, 6). *)
Definition draws_two_holes : RandomState :=
  {| py_stream := stream_of [0; 0; 4503599627370496]; np_stream := stream_of [2; 2; 6; 6] |}.

(** One hole of side 2, always applied. *)
Definition one_hole : Cutout.t :=
  Cutout.__init__ 1 2 0 None None 1.

Definition draws_one_hole : RandomState :=
  {| py_stream := stream_of [0; 0]; np_stream := stream_of [1; 1] |}.

Definition sample_listdir (d : string) : list string :=
  if String.eqb d "noise" then ["a.jpg"; "b.png"; ".c.jpg"]
  else if String.eqb d "drawings" then ["b.png"; "notes.txt"]
  else [].

Definition sample_eval (s : string) : result value :=
  Raise (ValueError "eval").

(** The interpreter once the module is imported. *)
Definition sample_interp : interp := snd (import_module sample_listdir sample_eval).

Definition sample_config : dict :=
  [("resize", VDict [("size", VInt 224)]);
   ("random_choice",
    VList [VDict [("random_invert", VStr "no_params")];
           VDict [("random_grayscale", VDict [("p", VFloat (1 # 2))])]]);
   ("to_tensor", VStr "no_params")].

Definition sample_compiled : result value * interp :=
  create_AugTransforms sample_config sample_interp.

Definition sample_mapping : dict :=
  [("cat", VStr "0 2"); ("dog", VList [VInt 2; VInt 2; VInt (-3)])].

(** A function that takes the name of a registered one. *)
Definition second_resize : pyfun :=
  def "resize" [] (fun _ => T "Lambda" [] []).

Definition my_transform : pyfun :=
  def "my_transform" [] (fun _ => T "Lambda" [] []).

(** Colours given as a triple of integers. *)
Definition rgb_of_value (v : value) : result pixel :=
  match v with
  | VTuple [VInt r; VInt g; VInt b] => Ok (r, g, b)
  | _ => Raise (TypeError "color must be int or tuple")
  end.

(** ** list_augments *)

(** [sorted(l)] on strings: the ascending order of the code points. *)
Fixpoint insert_sorted (s : string) (l : list string) : list string :=
  match l with
  | [] => [s]
  | x :: l' => if String.leb s x then s :: l else x :: insert_sorted s l'
  end.

Definition sorted (l : list string) : list string := foldr insert_sorted [] l.

Definition list_augments (st : interp) : list string :=
  let augments := map fst (map_to_list (AUG_METHODS st)) in
  sorted augments.

(** ** class RandomColorJitter *)

Section RandomColorJitter.

(** The generator torchvision draws from, and [T.ColorJitter.forward]
    with the parameters of the object. *)
Variable torch_state : Type.
Variable ColorJitter_forward : Image -> M torch_state Image.

Definition with_python {A} (m : M RandomState A) : M (RandomState * torch_state) A :=
  fun s => let '(r, rs) := m (fst s) in (r, (rs, snd s)).

Definition with_torch {A} (m : M torch_state A) : M (RandomState * torch_state) A :=
  fun s => let '(r, ts) := m (snd s) in (r, (fst s, ts)).

Definition RandomColorJitter_forward (prob : Q) (img : Image)
  : M (RandomState * torch_state) Image :=
  do r <- with_python random_random;
  if negb (Qle_bool prob r)
  then with_torch (ColorJitter_forward img)
  else ret img.

End RandomColorJitter.

(** ** class CutAddNoise (the call) *)

(** [random.choice(seq)] *)
Definition py_random_choice {A} (seq : list A) : M RandomState A :=
  fun rs =>
    match seq !! Z.to_nat (py_stream rs 0%nat mod Z.of_nat (List.length seq)) with
    | Some a => (Ok a, {| py_stream := fun n => py_stream rs (S n); np_stream := np_stream rs |})
    | None => (Raise (IndexError "Cannot choose from an empty sequence"), rs)
    end.

(** [im.crop((left, upper, right, lower))]: the region of that box,
    black where the box leaves the image. *)
Definition Image_crop (im : Image) (box : Z * Z * Z * Z) : result Image :=
  let '(x1, y1, x2, y2) := box in
  if x2 <? x1 then Raise (ValueError "Coordinate 'right' is less than 'left'")
  else if y2 <? y1 then Raise (ValueError "Coordinate 'lower' is less than 'upper'")
  else Ok {| width := x2 - x1; height := y2 - y1;
             rows := map (fun j => map (fun i => default black
                                          (getpixel im (x1 + Z.of_nat i) (y1 + Z.of_nat j)))
                                       (seq 0 (Z.to_nat (x2 - x1))))
                         (seq 0 (Z.to_nat (y2 - y1))) |}.

Module CutAddNoiseCall.

(** The attributes [__call__] reads, with the types the constructor's
    annotations give them. *)
Record t := {
  n_holes : Z;
  length : Z;
  h_range : option (Z * Z);
  w_range : option (Z * Z);
  prob : Q;
  noisy : list string
}.

Section Call.

(** [Image.open(path).convert('RGB')] and [im.resize(size)]. *)
Variable Image_open_rgb : string -> result Image.
Variable Image_resize : Image -> Z * Z -> result Image.

(** The body of [for n in range(self.n_holes)]. *)
Definition hole (self : t) (noisy_image : Image) (h w : Z * Z) (img : Image)
  : M RandomState Image :=
  do y <- np_random_randint (fst h) (snd h);
  do x <- np_random_randint (fst w) (snd w);
  let x1 := Z.max 0 (x - length self / 2) in
  let y1 := Z.max 0 (y - length self / 2) in
  let x2 := Z.min (width noisy_image) (x + length self / 2) in
  let y2 := Z.min (height noisy_image) (y + length self / 2) in
  do noisy_box <- lift (Image_crop noisy_image (x1, y1, x2, y2));
  ret (paste img noisy_box (x1, y1)).

Fixpoint holes (self : t) (noisy_image : Image) (h w : Z * Z) (n : nat) (img : Image)
  : M RandomState Image :=
  match n with
  | O => ret img
  | S n' => do img' <- hole self noisy_image h w img; holes self noisy_image h w n' img'
  end.

Definition __call__ (self : t) (image : Image) : M RandomState Image :=
  do u <- random_random;
  if negb (Qle_bool u (prob self)) then ret image
  else
    let img := deepcopy image in
    let h := default (0, height img) (h_range self) in
    let w := default (0, width img) (w_range self) in
    do path <- py_random_choice (noisy self);
    do noisy_image <- lift (Image_open_rgb path);
    do noisy_image <- lift (Image_resize noisy_image (width image, height image));
    holes self noisy_image h w (Z.to_nat (n_holes self)) img.

End Call.

End CutAddNoiseCall.

(** *** Vocabulary for the further properties *)

(** A call of [fn], whether it returns or raises, only adds to the heap. *)
Definition grows_call (fn : pyfun) : Prop :=
  ∀ args kwargs h, ∃ ext, snd (__call__ fn args kwargs h) = h ++ ext.

Definition grows_registry (reg : gmap string pyfun) : Prop :=
  ∀ name fn, reg !! name = Some fn → grows_call fn.

Definition grows_m {A} (m : M (list object) A) : Prop :=
  ∀ h, ∃ ext, snd (m h) = h ++ ext.

(** A computation of the interpreter that, run with the registry [reg],
    leaves the registry as it is and only adds to the heap. *)
Definition grows {A} (reg : gmap string pyfun) (m : M interp A) : Prop :=
  ∀ st, AUG_METHODS st = reg →
    AUG_METHODS (snd (m st)) = reg ∧ ∃ ext, heap (snd (m st)) = heap st ++ ext.

(** The boxes [(x1, y1, x2, y2)] the noise patches are cropped from,
    for a noise image of width [nw] and height [nh]. *)
Definition noise_box (L nw nh : Z) (c : Z * Z) : Z * Z * Z * Z :=
  (Z.max 0 (fst c - L / 2), Z.max 0 (snd c - L / 2),
   Z.min nw (fst c + L / 2), Z.min nh (snd c + L / 2)).

Definition in_box (x y : Z) (b : Z * Z * Z * Z) : bool :=
  let '(x1, y1, x2, y2) := b in (x1 <=? x) && (x <? x2) && (y1 <=? y) && (y <? y2).

(** The ranges the centres of the noise patches are sampled from. *)
Definition noise_h (self : CutAddNoiseCall.t) (image : Image) : Z * Z :=
  default (0, height image) (CutAddNoiseCall.h_range self).
Definition noise_w (self : CutAddNoiseCall.t) (image : Image) : Z * Z :=
  default (0, width image) (CutAddNoiseCall.w_range self).

Definition noise_boxes (self : CutAddNoiseCall.t) (image : Image) (rs : RandomState)
  : list (Z * Z * Z * Z) :=
  map (noise_box (CutAddNoiseCall.length self) (width image) (height image))
      (centers (noise_h self image) (noise_w self image)
               (Z.to_nat (CutAddNoiseCall.n_holes self)) (np_stream rs)).

Definition under_noise (self : CutAddNoiseCall.t) (image : Image) (rs : RandomState)
    (x y : Z) : bool :=
  existsb (in_box x y) (noise_boxes self image rs).

(** Nearest-neighbour sampling, a sample of [im.resize]. *)
Definition sample_resize (im : Image) (size : Z * Z) : result Image :=
  let '(w, h) := size in
  if (w <=? 0) || (h <=? 0) then Raise (ValueError "height and width must be > 0")
  else Ok {| width := w; height := h;
             rows := map (fun j => map (fun i => default black
                             (getpixel im (Z.of_nat i * width im / w) (Z.of_nat j * height im / h)))
                             (seq 0 (Z.to_nat w)))
                         (seq 0 (Z.to_nat h)) |}.

Definition sample_open (path : string) : result Image :=
  if String.eqb path "noise/a.jpg"
  then Ok {| width := 2; height := 2;
             rows := [[(1, 2, 3); (4, 5, 6)]; [(7, 8, 9); (10, 11, 12)]] |}
  else Raise (ValueError "cannot identify image file").

(** The noise transform with [n] patches of side [L] from a pool of
    one file, always applied. *)
Definition noise_patches (n L : Z) : CutAddNoiseCall.t :=
  {| CutAddNoiseCall.n_holes := n; CutAddNoiseCall.length := L;
     CutAddNoiseCall.h_range := None; CutAddNoiseCall.w_range := None;
     CutAddNoiseCall.prob := 1; CutAddNoiseCall.noisy := ["noise/a.jpg"] |}.

(** Where the square padding pastes its input. *)
Definition pad_offset (self : PadIfNeed.t) (image : Image) : Z * Z :=
  let side := Z.max (width image) (height image) in
  if str_eq (PadIfNeed.mode self) "average"
  then ((side - width image) / 2, (side - height image) / 2)
  else (side - width image, side - height image).

(** * Properties *)

(** ** Images *)

Lemma getpixel_inside (im : Image) (x y : Z) :
  wf_image im → 0 <= x < width im → 0 <= y < height im →
  is_Some (getpixel im x y).
Proof.
  intros (Hw & Hh & Hlen & Hrows) Hx Hy. unfold getpixel.
  replace ((0 <=? x) && (x <? width im) && (0 <=? y) && (y <? height im)) with true
    by (symmetry; repeat (apply andb_true_intro; split); lia).
  destruct (lookup_lt_is_Some_2 (rows im) (Z.to_nat y)) as [row Hrow]; [lia|].
  rewrite Hrow. apply lookup_lt_is_Some_2.
  rewrite Forall_lookup in Hrows. rewrite (Hrows _ _ Hrow). lia.
Qed.

Lemma getpixel_outside (im : Image) (x y : Z) :
  ¬ (0 <= x < width im ∧ 0 <= y < height im) → getpixel im x y = None.
Proof.
  intros H. unfold getpixel.
  destruct ((0 <=? x) && (x <? width im) && (0 <=? y) && (y <? height im)) eqn:E; [|done].
  exfalso. apply H. rewrite !andb_true_iff in E. lia.
Qed.

Lemma getpixel_paste (im src : Image) (ox oy x y : Z) :
  getpixel (paste im src (ox, oy)) x y
  = (λ p, default p (getpixel src (x - ox) (y - oy))) <$> getpixel im x y.
Proof.
  unfold getpixel at 1 3. simpl.
  destruct ((0 <=? x) && (x <? width im) && (0 <=? y) && (y <? height im)) eqn:E; [|done].
  rewrite !andb_true_iff in E. rewrite list_lookup_imap.
  destruct (rows im !! Z.to_nat y) as [row|]; simpl; [|done].
  rewrite list_lookup_imap. rewrite !Z2Nat.id by lia. done.
Qed.

Lemma getpixel_new (w h : Z) (c : pixel) (im : Image) (x y : Z) :
  Image_new (w, h) c = Ok im →
  getpixel im x y = if (0 <=? x) && (x <? w) && (0 <=? y) && (y <? h) then Some c else None.
Proof.
  unfold Image_new. destruct ((w <? 0) || (h <? 0)) eqn:E; [done|].
  intros [= <-]. unfold getpixel. simpl.
  destruct ((0 <=? x) && (x <? w) && (0 <=? y) && (y <? h)) eqn:B; [|done].
  rewrite !andb_true_iff in B.
  rewrite lookup_replicate_2 by lia. rewrite lookup_replicate_2 by lia. done.
Qed.

Lemma paste_size (im src : Image) (box : Z * Z) :
  width (paste im src box) = width im ∧ height (paste im src box) = height im.
Proof. destruct box. done. Qed.

(** ** Square padding *)

Lemma str_eq_unique (v : value) (a b : string) :
  str_eq v a = true → str_eq v b = true → a = b.
Proof.
  destruct v; try done. simpl. intros Ha Hb.
  apply String.eqb_eq in Ha, Hb. congruence.
Qed.

Lemma PadIfNeed_init_mode (pv md : value) (self : PadIfNeed.t) :
  PadIfNeed.__init__ pv md = Ok self →
  PadIfNeed.mode self = md ∧ (str_eq md "edge" = true ∨ str_eq md "average" = true).
Proof.
  unfold PadIfNeed.__init__, rbind.
  destruct (if isinstance_int pv then _ else _) as [v|e]; [|done].
  destruct (str_eq md "edge") eqn:E1; simpl.
  - intros [= <-]. auto.
  - destruct (str_eq md "average") eqn:E2; [|done]. intros [= <-]. auto.
Qed.

Lemma pad_pasted (canvas image : Image) (fill : pixel) (side ox oy : Z) :
  wf_image image →
  Image_new (side, side) fill = Ok canvas →
  0 <= ox → 0 <= oy → ox + width image <= side → oy + height image <= side →
  pasted_at (paste canvas image (ox, oy)) image fill ox oy.
Proof.
  intros Hwf Hnew Hox Hoy Hw Hh. split.
  - intros x y Hx Hy. rewrite getpixel_paste, (getpixel_new _ _ _ _ _ _ Hnew).
    replace ((0 <=? ox + x) && (ox + x <? side) && (0 <=? oy + y) && (oy + y <? side))
      with true by (symmetry; rewrite !andb_true_iff; lia).
    simpl. replace (ox + x - ox) with x by lia. replace (oy + y - oy) with y by lia.
    destruct (getpixel_inside image x y Hwf Hx Hy) as [p ->]. done.
  - intros x y Hx Hy Hout. rewrite getpixel_paste, (getpixel_new _ _ _ _ _ _ Hnew).
    assert (width canvas = side ∧ height canvas = side) as [Hcw Hch].
    { unfold Image_new in Hnew. destruct ((side <? 0) || (side <? 0)); [done|].
      injection Hnew as <-. done. }
    simpl in Hx, Hy. rewrite Hcw in Hx. rewrite Hch in Hy.
    replace ((0 <=? x) && (x <? side) && (0 <=? y) && (y <? side))
      with true by (symmetry; rewrite !andb_true_iff; lia).
    simpl. rewrite getpixel_outside by lia. done.
Qed.

(** C6. Square padding returns a square image whose side is the larger
    of the input's width and height. In [average] mode the input is
    pasted at ((side - w) // 2, (side - h) // 2), so the margins on the
    two sides of an axis differ by at most one pixel; in [edge] mode it
    is pasted at (side - w, side - h), flush with the far corner, all
    padding on the near side. *)
Theorem PadIfNeed_call_square (getcolor : value → result pixel)
    (pv md : value) (self : PadIfNeed.t) (image : Image) (fill : pixel) :
  PadIfNeed.__init__ pv md = Ok self →
  getcolor (PadIfNeed.pad_value self) = Ok fill →
  wf_image image →
  let w := width image in
  let h := height image in
  let side := Z.max w h in
  ∃ out, PadIfNeed.__call__ getcolor self image = Ok out ∧
    width out = side ∧ height out = side ∧
    (str_eq md "average" = true →
       pasted_at out image fill ((side - w) / 2) ((side - h) / 2) ∧
       0 <= (side - w - (side - w) / 2) - (side - w) / 2 <= 1 ∧
       0 <= (side - h - (side - h) / 2) - (side - h) / 2 <= 1) ∧
    (str_eq md "edge" = true →
       pasted_at out image fill (side - w) (side - h) ∧
       (side - w) + w = width out ∧ (side - h) + h = height out).
Proof.
  intros Hinit Hcol Hwf w h side.
  destruct (PadIfNeed_init_mode _ _ _ Hinit) as [Hmode _].
  pose proof Hwf as (Hw0 & Hh0 & _).
  assert (∃ canvas, Image_new (side, side) fill = Ok canvas ∧
                    width canvas = side ∧ height canvas = side) as (canvas & Hnew & Hcw & Hch).
  { unfold Image_new. replace ((side <? 0) || (side <? 0)) with false
      by (symmetry; rewrite orb_false_iff; unfold side, w, h; lia).
    eexists. split; [reflexivity|done]. }
  unfold PadIfNeed.__call__. rewrite Hcol. cbn [rbind].
  change (Z.max (width image) (height image)) with side. rewrite Hnew. cbn [rbind].
  rewrite Hmode.
  assert (0 <= (side - w) / 2 <= side - w) as Hdx.
  { split; [apply Z.div_pos|apply Z.div_le_upper_bound]; unfold side, w, h; lia. }
  assert (0 <= (side - h) / 2 <= side - h) as Hdy.
  { split; [apply Z.div_pos|apply Z.div_le_upper_bound]; unfold side, w, h; lia. }
  pose proof (Z.div_mod (side - w) 2 ltac:(lia)) as Hmx.
  pose proof (Z.mod_pos_bound (side - w) 2 ltac:(lia)) as Hbx.
  pose proof (Z.div_mod (side - h) 2 ltac:(lia)) as Hmy.
  pose proof (Z.mod_pos_bound (side - h) 2 ltac:(lia)) as Hby.
  destruct (str_eq md "average") eqn:E.
  - eexists. split; [reflexivity|]. split; [exact Hcw|]. split; [exact Hch|]. split.
    + intros _. split; [|lia].
      apply (pad_pasted canvas image fill side); try done; fold w h; lia.
    + intros Hedge. discriminate (str_eq_unique _ _ _ Hedge E).
  - eexists. split; [reflexivity|]. split; [exact Hcw|]. split; [exact Hch|]. split.
    + intros [=].
    + intros _. split.
      * apply (pad_pasted canvas image fill side); try done; fold w h; unfold side; lia.
      * destruct (paste_size canvas image (side - width image, side - height image))
          as [-> ->].
        rewrite Hcw, Hch. lia.
Qed.

(** ** Patch cutout *)

Lemma random_random_gate (rs : RandomState) :
  ∃ rs', random_random rs = (Ok (gate rs), rs') ∧
         py_stream rs' = (λ n, py_stream rs (S n)) ∧ np_stream rs' = np_stream rs.
Proof. eexists. split; [reflexivity|]. done. Qed.

Lemma unit_draw (k : Z) : (0 <= Qmake (k mod Zpos two53) two53 < 1)%Q.
Proof.
  pose proof (Z.mod_pos_bound k (Zpos two53) ltac:(done)) as Hb.
  split; unfold Qle, Qlt; simpl; lia.
Qed.

Lemma gate_range (rs : RandomState) : (0 <= gate rs < 1)%Q.
Proof. apply unit_draw. Qed.

Lemma width_factor_range (self : Cutout.t) (rs : RandomState) :
  (0 <= Cutout.ratio self)%Q →
  (1 - Cutout.ratio self <= width_factor self rs <= 1 + Cutout.ratio self)%Q.
Proof.
  intros Hr. unfold width_factor.
  pose proof (unit_draw (py_stream rs 1%nat)) as [Hu0 Hu1].
  generalize dependent (Qmake (py_stream rs 1%nat mod Zpos two53) two53).
  generalize dependent (Cutout.ratio self). intros r Hr u Hu0 Hu1.
  assert (0 <= r * u)%Q as H1 by (apply Qmult_le_0_compat; lra).
  assert (0 <= r * (1 - u))%Q as H2 by (apply Qmult_le_0_compat; lra).
  split; nra.
Qed.

Lemma int_of_float_nonneg (q : Q) : (0 <= q)%Q → 0 <= int_of_float q.
Proof.
  unfold Qle, int_of_float. simpl. intros H.
  apply Z.quot_pos; lia.
Qed.

Lemma mask_w_nonneg (self : Cutout.t) (rs : RandomState) :
  (0 <= Cutout.ratio self <= 1)%Q → 0 <= Cutout.length self →
  0 <= mask_w self rs.
Proof.
  intros [Hr0 Hr1] HL. apply int_of_float_nonneg.
  pose proof (width_factor_range self rs Hr0) as [Hlo _].
  assert (0 <= inject_Z (Cutout.length self))%Q as HLq
    by (unfold Qle; simpl; lia).
  apply Qmult_le_0_compat; [lra|done].
Qed.

Lemma randint_in_range (low high : Z) (rs : RandomState) :
  low < high →
  np_random_randint low high rs
  = (Ok (low + np_stream rs 0%nat mod (high - low)),
     {| py_stream := py_stream rs; np_stream := λ n, np_stream rs (S n) |}).
Proof.
  intros H. unfold np_random_randint.
  destruct (low >=? high) eqn:E; [lia|done].
Qed.

Lemma centers_length (h w : Z * Z) (n : nat) (np : nat → Z) :
  length (centers h w n np) = n.
Proof. revert np. induction n as [|n IH]; intros np; simpl; [done|]. by rewrite IH. Qed.

Lemma centers_in_range (h w : Z * Z) (n : nat) (np : nat → Z) :
  fst h < snd h → fst w < snd w →
  Forall (λ c, fst w <= fst c < snd w ∧ fst h <= snd c < snd h) (centers h w n np).
Proof.
  intros Hh Hw. revert np. induction n as [|n IH]; intros np; simpl; constructor.
  - simpl.
    pose proof (Z.mod_pos_bound (np 1%nat) (snd w - fst w) ltac:(lia)).
    pose proof (Z.mod_pos_bound (np 0%nat) (snd h - fst h) ltac:(lia)). lia.
  - apply IH.
Qed.

Lemma holes_fold (self : Cutout.t) (mask : Image) (h w : Z * Z) (n : nat) :
  fst h < snd h → fst w < snd w →
  ∀ (img : Image) (rs : RandomState),
    ∃ rs', Cutout.holes self mask h w n img rs
           = (Ok (fold_left (λ im c, paste im mask (corner self c))
                            (centers h w n (np_stream rs)) img), rs').
Proof.
  intros Hh Hw. induction n as [|n IH]; intros img rs.
  - eexists. reflexivity.
  - cbn [Cutout.holes]. unfold bind at 1. unfold Cutout.hole.
    unfold bind at 1. rewrite (randint_in_range _ _ rs Hh).
    unfold bind at 1. rewrite randint_in_range by done.
    cbn [ret py_stream np_stream].
    match goal with |- context [Cutout.holes _ _ _ _ _ ?i ?r] =>
      destruct (IH i r) as [rs' ->] end.
    eexists. reflexivity.
Qed.

Lemma fold_left_fmap {A B C} (f : A → C → A) (g : B → C) (l : list B) (a : A) :
  fold_left f (map g l) a = fold_left (λ a b, f a (g b)) l a.
Proof. revert a. induction l as [|b l IH]; intros a; simpl; [done|]. apply IH. Qed.

(** What a call does once the gate lets it through. *)
Lemma Cutout_call_applied (self : Cutout.t) (image : Image) (rs : RandomState) :
  Qle_bool (gate rs) (Cutout.prob self) = true →
  0 <= Cutout.length self →
  (0 <= Cutout.ratio self <= 1)%Q →
  fst (sample_h self image) < snd (sample_h self image) →
  fst (sample_w self image) < snd (sample_w self image) →
  ∃ mask rs',
    Image_new (mask_w self rs, Cutout.length self) black = Ok mask ∧
    Cutout.__call__ self image rs
    = (Ok (fold_left (λ im c, paste im mask c) (corners self image rs) image), rs').
Proof.
  intros Hgate HL Hr Hh Hw.
  pose proof (mask_w_nonneg self rs Hr HL) as Hmw.
  assert (∃ mask, Image_new (mask_w self rs, Cutout.length self) black = Ok mask)
    as [mask Hmask].
  { unfold Image_new.
    replace ((mask_w self rs <? 0) || (Cutout.length self <? 0)) with false
      by (symmetry; rewrite orb_false_iff; lia).
    eexists. reflexivity. }
  exists mask.
  unfold Cutout.__call__. unfold bind at 1. unfold random_random at 1.
  change (Qmake (py_stream rs 0%nat mod Zpos two53) two53) with (gate rs).
  rewrite Hgate. cbn [negb].
  unfold bind at 1. unfold random_uniform. unfold bind at 1. unfold random_random at 1.
  cbn [ret py_stream np_stream].
  change (int_of_float _) with (mask_w self rs).
  unfold bind at 1. unfold lift. rewrite Hmask.
  unfold deepcopy.
  edestruct (holes_fold self mask (sample_h self image) (sample_w self image)
               (Z.to_nat (Cutout.n_holes self)) Hh Hw image) as [rs' Hrs'].
  unfold sample_h, sample_w in Hrs'. rewrite Hrs'.
  exists rs'. split; [done|]. f_equal. f_equal. unfold corners. cbn [np_stream].
  rewrite fold_left_fmap. reflexivity.
Qed.




(** ** The gate of the patch cutout *)

Lemma wf_paste (im src : Image) (box : Z * Z) : wf_image im → wf_image (paste im src box).
Proof.
  destruct box as [ox oy]. intros (Hw & Hh & Hlen & Hrows).
  split; [done|]. split; [done|]. split.
  - simpl. by rewrite length_imap.
  - simpl. apply Forall_lookup. intros i row Hrow.
    rewrite list_lookup_imap in Hrow.
    destruct (rows im !! i) as [row0|] eqn:E; simpl in Hrow; [|done].
    injection Hrow as <-. rewrite length_imap.
    rewrite Forall_lookup in Hrows. by apply (Hrows i).
Qed.

Lemma wf_fold_paste (mask : Image) (cs : list (Z * Z)) (im : Image) :
  wf_image im → wf_image (fold_left (λ im c, paste im mask c) cs im).
Proof.
  revert im. induction cs as [|c cs IH]; intros im Hwf; simpl; [done|].
  apply IH. by apply wf_paste.
Qed.

Lemma size_fold_paste (mask : Image) (cs : list (Z * Z)) (im : Image) :
  width (fold_left (λ im c, paste im mask c) cs im) = width im ∧
  height (fold_left (λ im c, paste im mask c) cs im) = height im.
Proof.
  revert im. induction cs as [|c cs IH]; intros im; simpl; [done|].
  destruct (IH (paste im mask c)) as [-> ->]. apply paste_size.
Qed.

(** The pixels after the holes are pasted: black under a hole, the
    input's elsewhere. *)
Lemma getpixel_fold_paste (mw mh : Z) (mask : Image) (cs : list (Z * Z)) (im : Image) (x y : Z) :
  Image_new (mw, mh) black = Ok mask →
  getpixel (fold_left (λ im c, paste im mask c) cs im) x y
  = (λ p, if existsb (covers mw mh x y) cs then black else p) <$> getpixel im x y.
Proof.
  intros Hmask. revert im. induction cs as [|[cx cy] cs IH]; intros im; cbn [fold_left existsb].
  - by destruct (getpixel im x y).
  - rewrite IH, getpixel_paste, (getpixel_new _ _ _ _ _ _ Hmask).
    destruct (getpixel im x y) as [p|]; simpl; [|done].
    change (covers mw mh x y (cx, cy))
      with ((cx <=? x) && (x <? cx + mw) && (cy <=? y) && (y <? cy + mh)).
    replace ((0 <=? x - cx) && (x - cx <? mw) && (0 <=? y - cy) && (y - cy <? mh))
      with ((cx <=? x) && (x <? cx + mw) && (cy <=? y) && (y <? cy + mh)).
    2:{ apply eq_true_iff_eq. rewrite !andb_true_iff. lia. }
    destruct ((cx <=? x) && (x <? cx + mw) && (cy <=? y) && (y <? cy + mh)); simpl.
    + by destruct (existsb _ cs).
    + done.
Qed.

(** Two well-formed images of one size with the same pixels have the
    same buffer. *)
Lemma rows_ext (a b : Image) :
  wf_image a → wf_image b → width a = width b → height a = height b →
  (∀ x y, getpixel a x y = getpixel b x y) → rows a = rows b.
Proof.
  intros (Hwa & Hha & Hla & Hra) (Hwb & Hhb & Hlb & Hrb) Hw Hh Hpix.
  apply list_eq_same_length with (n := Z.to_nat (height a)); [by rewrite Hh|done|].
  intros i ra rb Hi Ha Hb.
  rewrite Forall_lookup in Hra, Hrb.
  pose proof (Hra _ _ Ha) as Hlena. pose proof (Hrb _ _ Hb) as Hlenb.
  apply list_eq_same_length with (n := Z.to_nat (width a)); [by rewrite Hw|done|].
  intros j pa pb Hj Hpa Hpb.
  specialize (Hpix (Z.of_nat j) (Z.of_nat i)). unfold getpixel in Hpix.
  rewrite <- Hw, <- Hh in Hpix.
  replace ((0 <=? Z.of_nat j) && (Z.of_nat j <? width a) && (0 <=? Z.of_nat i)
           && (Z.of_nat i <? height a)) with true in Hpix
    by (symmetry; rewrite !andb_true_iff; lia).
  rewrite !Nat2Z.id, Ha, Hb, Hpa, Hpb in Hpix. congruence.
Qed.




(** At apply probability 0 the comparison [random.random() > self.prob]
    lets the draw 0.0 through: the hole is cut. *)
Example Cutout_gate_draw_zero :
  ∃ out, fst (Cutout.__call__ (Cutout.__init__ 1 2 0 None None 0) (solid 4 4 white)
                {| py_stream := stream_of [0; 0]; np_stream := stream_of [1; 1] |}) = Ok out ∧
         getpixel out 0 0 = Some black.
Proof. eexists. split; vm_compute; reflexivity. Qed.

(** ** The monad *)

Lemma bind_Ok {S A B} (m : M S A) (k : A → M S B) (s : S) (b : B) (s' : S) :
  bind m k s = (Ok b, s') → ∃ a s1, m s = (Ok a, s1) ∧ k a s1 = (Ok b, s').
Proof.
  unfold bind. destruct (m s) as [[a|e] s1]; [|done]. intros H. by exists a, s1.
Qed.

Lemma bind_run {S A B} (m : M S A) (k : A → M S B) (s s1 : S) (a : A) :
  m s = (Ok a, s1) → bind m k s = k a s1.
Proof. unfold bind. by intros ->. Qed.

Lemma bind_fail {S A B} (m : M S A) (k : A → M S B) (s s1 : S) (e : exn) :
  m s = (Raise e, s1) → bind m k s = (Raise e, s1).
Proof. unfold bind. by intros ->. Qed.

(** ** The compiler leaves the registry alone *)

Lemma frame_ret {A} (a : A) : frame (ret a).
Proof. done. Qed.

Lemma frame_raise {A} (e : exn) : frame (raise (A := A) e).
Proof. done. Qed.

Lemma frame_lift {A} (r : result A) : frame (lift r).
Proof. done. Qed.

Lemma frame_assert (b : bool) (msg : string) : frame (assert b msg).
Proof. by destruct b. Qed.

Lemma frame_bind {A B} (m : M interp A) (k : A → M interp B) :
  frame m → (∀ a, frame (k a)) → frame (bind m k).
Proof.
  intros Hm Hk st. unfold bind. specialize (Hm st).
  destruct (m st) as [[a|e] s1]; simpl in *; [|done].
  by rewrite Hk.
Qed.

Lemma frame_on_heap {A} (m : M (list object) A) : frame (on_heap m).
Proof. intros st. unfold on_heap. by destruct (m (heap st)). Qed.

Lemma frame_getitem (key : string) : frame (AUG_METHODS_getitem key).
Proof. intros st. unfold AUG_METHODS_getitem. by destruct (AUG_METHODS st !! key). Qed.

Create HintDb frame.
#[local] Hint Resolve frame_ret frame_raise frame_lift frame_assert frame_on_heap
  frame_getitem : frame.

Ltac frame_tac :=
  repeat first
    [ apply frame_bind; [|intros ?]
    | solve [auto with frame]
    | match goal with |- frame (match ?x with _ => _ end) => destruct x end
    | match goal with |- frame (if ?b then _ else _) => destruct b end ].

Lemma frame_addAugToSequence (aug_name : string) (params : value) (aug_list : list value) :
  frame (addAugToSequence aug_name params aug_list).
Proof. unfold addAugToSequence, call. frame_tac. Qed.

Lemma frame_choices (n : nat) (cs : list value) (l : list value) : frame (choices n cs l).
Proof.
  revert l. induction cs as [|c cs IH]; intros l; cbn [choices]; [frame_tac|].
  destruct (single_item c) as [[k v]|]; [|frame_tac].
  apply frame_bind; [apply frame_addAugToSequence|]. intros l'. apply IH.
Qed.

Lemma frame_entries (augments items : dict) (augs : list value) :
  frame (entries augments items augs).
Proof.
  revert augs. induction items as [|[key params] items IH]; intros augs; cbn [entries];
    [frame_tac|].
  destruct (String.eqb key "random_choice").
  - apply frame_bind; [frame_tac|]. intros _.
    apply frame_bind; [frame_tac|]. intros cs.
    apply frame_bind; [apply frame_choices|]. intros l.
    apply frame_bind; [frame_tac|]. intros fn.
    apply frame_bind; [unfold call; frame_tac|]. intros t. apply IH.
  - apply frame_bind; [apply frame_addAugToSequence|]. intros l. apply IH.
Qed.

Lemma frame_create_AugTransforms (augments : dict) : frame (create_AugTransforms augments).
Proof.
  unfold create_AugTransforms, Compose.
  apply frame_bind; [apply frame_entries|]. intros augs. frame_tac.
Qed.


(** ** The compiled pipeline *)

Lemma dict_get_In (d : dict) (k : string) (v : value) :
  NoDup (map fst d) → In (k, v) d → dict_get d k = Some v.
Proof.
  induction d as [|[k' v'] d IH]; intros Hnd Hin; [done|].
  simpl in *. apply NoDup_cons in Hnd as [Hk' Hnd].
  destruct Hin as [[= -> ->]|Hin].
  - by rewrite String.eqb_refl.
  - destruct (String.eqb k' k) eqn:E; [|by apply IH].
    apply String.eqb_eq in E as ->. exfalso. apply Hk'.
    apply list_elem_of_In. apply (in_map fst) in Hin. exact Hin.
Qed.

Lemma call_Ok (fn : pyfun) (args : list value) (kwargs : dict) (st st' : interp) (t : value) :
  call fn args kwargs st = (Ok t, st') →
  __call__ fn args kwargs (heap st) = (Ok t, heap st') ∧ AUG_METHODS st' = AUG_METHODS st.
Proof.
  unfold call, on_heap. destruct (__call__ fn args kwargs (heap st)) as [r h].
  by intros [= -> <-].
Qed.

Lemma call_total (fn : pyfun) (args : list value) (kwargs : dict) (st : interp) :
  (∀ h, ∃ v h', __call__ fn args kwargs h = (Ok v, h')) →
  ∃ t st', call fn args kwargs st = (Ok t, st') ∧ AUG_METHODS st' = AUG_METHODS st.
Proof.
  intros H. destruct (H (heap st)) as (v & h' & Hv).
  unfold call, on_heap. rewrite Hv. by eexists _, _.
Qed.

Lemma getitem_Ok (key : string) (st st' : interp) (fn : pyfun) :
  AUG_METHODS_getitem key st = (Ok fn, st') → st' = st ∧ AUG_METHODS st !! key = Some fn.
Proof.
  unfold AUG_METHODS_getitem. destruct (AUG_METHODS st !! key); [|done].
  by intros [= -> ->].
Qed.

Lemma getitem_run (key : string) (st : interp) (fn : pyfun) :
  AUG_METHODS st !! key = Some fn → AUG_METHODS_getitem key st = (Ok fn, st).
Proof. unfold AUG_METHODS_getitem. by intros ->. Qed.

Lemma addAugToSequence_Ok (name : string) (params : value) (l l' : list value)
    (st st' : interp) :
  addAugToSequence name params l st = (Ok l', st') →
  AUG_METHODS st' = AUG_METHODS st ∧
  ∃ t, l' = l ++ [t] ∧ made_from (AUG_METHODS st) name params t.
Proof.
  intros H. split.
  { pose proof (frame_addAugToSequence name params l st) as F. by rewrite H in F. }
  unfold addAugToSequence in H. unfold made_from, kwargs_of.
  destruct (str_eq params "no_params").
  - apply bind_Ok in H as (fn & s1 & Hfn & H). apply getitem_Ok in Hfn as [-> Hfn].
    apply bind_Ok in H as (t & s2 & Ht & H). injection H as <- <-.
    apply call_Ok in Ht as [Ht _].
    exists t. split; [done|]. exists []. split; [done|]. by exists fn, (heap st), (heap s2).
  - apply bind_Ok in H as ([] & s0 & Ha & H).
    destruct params; try done. injection Ha as <-.
    apply bind_Ok in H as (fn & s1 & Hfn & H). apply getitem_Ok in Hfn as [-> Hfn].
    apply bind_Ok in H as (t & s2 & Ht & H). injection H as <- <-.
    apply call_Ok in Ht as [Ht _].
    exists t. split; [done|]. exists d. split; [done|]. by exists fn, (heap st), (heap s2).
Qed.

Lemma addAugToSequence_total (name : string) (params : value) (l : list value) (st : interp) :
  plain_ok (AUG_METHODS st) name params →
  ∃ l' st', addAugToSequence name params l st = (Ok l', st').
Proof.
  intros (kwargs & Hkw & fn & Hfn & Hcall). unfold addAugToSequence. unfold kwargs_of in Hkw.
  destruct (str_eq params "no_params").
  - injection Hkw as <-. rewrite (bind_run _ _ _ _ _ (getitem_run _ _ _ Hfn)).
    destruct (call_total fn [] [] st Hcall) as (t & st' & Ht & _).
    rewrite (bind_run _ _ _ _ _ Ht). by eexists _, _.
  - destruct params; try done. injection Hkw as ->.
    cbn [isinstance_dict assert]. rewrite (bind_run _ _ st st tt) by done.
    rewrite (bind_run _ _ _ _ _ (getitem_run _ _ _ Hfn)).
    destruct (call_total fn [] kwargs st Hcall) as (t & st' & Ht & _).
    rewrite (bind_run _ _ _ _ _ Ht). by eexists _, _.
Qed.

Lemma single_item_Some (c : value) (k : string) (v : value) :
  single_item c = Some (k, v) ↔ c = VDict [(k, v)].
Proof.
  split; [|by intros ->].
  destruct c as [| | | | | | |d|]; try done.
  destruct d as [|[k' v'] [|? ?]]; try done. simpl. by intros [= -> ->].
Qed.

Lemma choices_Ok (n : nat) (cs : list value) :
  ∀ (l l' : list value) (st st' : interp),
    choices n cs l st = (Ok l', st') →
    ∃ cands, l' = l ++ cands ∧
      Forall2 (λ c cand, ∃ k v, c = VDict [(k, v)] ∧ made_from (AUG_METHODS st) k v cand)
              cs cands.
Proof.
  induction cs as [|c cs IH]; intros l l' st st' H; cbn [choices] in H.
  - injection H as <- <-. exists []. split; [by rewrite app_nil_r|constructor].
  - destruct (single_item c) as [[k v]|] eqn:Hc; [|done].
    apply single_item_Some in Hc as ->.
    apply bind_Ok in H as (l1 & s1 & Hadd & H).
    apply addAugToSequence_Ok in Hadd as (Hreg & t & -> & Hmade).
    apply IH in H as (cands & -> & Hall). rewrite Hreg in Hall.
    exists (t :: cands). split; [by rewrite <- app_assoc|].
    constructor; [by exists k, v|done].
Qed.

Lemma choices_total (n : nat) (cs : list value) :
  ∀ (l : list value) (st : interp),
    Forall (λ c, ∃ k v, c = VDict [(k, v)] ∧ plain_ok (AUG_METHODS st) k v) cs →
    ∃ l' st', choices n cs l st = (Ok l', st').
Proof.
  induction cs as [|c cs IH]; intros l st Hall; cbn [choices]; [by eexists _, _|].
  apply Forall_cons in Hall as [(k & v & -> & Hok) Hall].
  cbn [single_item].
  destruct (addAugToSequence_total k v l st Hok) as (l1 & s1 & Hadd).
  rewrite (bind_run _ _ _ _ _ Hadd).
  apply addAugToSequence_Ok in Hadd as [Hreg _].
  apply IH. by rewrite Hreg.
Qed.

Lemma entries_Ok (augments : dict) (items : dict) :
  (∀ k v, In (k, v) items → dict_get augments k = Some v) →
  ∀ (augs augs' : list value) (st st' : interp),
    entries augments items augs st = (Ok augs', st') →
    ∃ new, augs' = augs ++ new ∧ Forall2 (built (AUG_METHODS st)) items new.
Proof.
  induction items as [|[key params] items IH]; intros Hget augs augs' st st' H;
    cbn [entries] in H.
  { injection H as <- <-. exists []. split; [by rewrite app_nil_r|constructor]. }
  assert (∀ k v, In (k, v) items → dict_get augments k = Some v) as Hget'
    by (intros k v Hin; apply Hget; by right).
  destruct (String.eqb key "random_choice") eqn:Ekey.
  - apply String.eqb_eq in Ekey as ->.
    apply bind_Ok in H as ([] & s0 & Ha & H).
    destruct params as [| | | | |cs| | |]; try done. injection Ha as <-.
    rewrite (Hget "random_choice" (VList cs)) in H by (by left).
    apply bind_Ok in H as (cs' & s1 & Hiter & H). injection Hiter as <- <-.
    apply bind_Ok in H as (cands & s2 & Hch & H).
    pose proof (frame_choices (length cs) cs [] st) as Hreg2. rewrite Hch in Hreg2.
    apply choices_Ok in Hch as (cands' & -> & Hcands). simpl in Hreg2.
    apply bind_Ok in H as (fn & s3 & Hfn & H). apply getitem_Ok in Hfn as [-> Hfn].
    apply bind_Ok in H as (t & s4 & Ht & H). apply call_Ok in Ht as [Ht Hreg4].
    apply (IH Hget') in H as (new & -> & Hnew).
    rewrite Hreg4, Hreg2 in Hnew. rewrite Hreg2 in Hfn.
    exists (t :: new). split; [by rewrite <- app_assoc|].
    constructor; [|done]. apply built_choice with (cands := cands'); [done|].
    by exists fn, (heap s2), (heap s4).
  - apply String.eqb_neq in Ekey.
    apply bind_Ok in H as (l1 & s1 & Hadd & H).
    apply addAugToSequence_Ok in Hadd as (Hreg & t & -> & Hmade).
    apply (IH Hget') in H as (new & -> & Hnew). rewrite Hreg in Hnew.
    exists (t :: new). split; [by rewrite <- app_assoc|].
    constructor; [by apply built_plain|done].
Qed.

Lemma entries_total (augments : dict) (items : dict) :
  (∀ k v, In (k, v) items → dict_get augments k = Some v) →
  ∀ (augs : list value) (st : interp),
    Forall (entry_ok (AUG_METHODS st)) items →
    ∃ augs' st', entries augments items augs st = (Ok augs', st').
Proof.
  induction items as [|[key params] items IH]; intros Hget augs st Hall; cbn [entries];
    [by eexists _, _|].
  assert (∀ k v, In (k, v) items → dict_get augments k = Some v) as Hget'
    by (intros k v Hin; apply Hget; by right).
  apply Forall_cons in Hall as [Hok Hall]. unfold entry_ok in Hok. cbn [fst snd] in Hok.
  destruct (String.eqb key "random_choice") eqn:Ekey.
  - apply String.eqb_eq in Ekey as ->.
    destruct Hok as (cs & -> & Hcs & Hrc).
    cbn [isinstance_list assert]. rewrite (bind_run _ _ st st tt) by done.
    rewrite (Hget "random_choice" (VList cs)) by (by left).
    rewrite (bind_run _ _ st st cs) by done.
    destruct (choices_total (length cs) cs [] st Hcs) as (cands & s2 & Hch).
    rewrite (bind_run _ _ _ _ _ Hch).
    pose proof (frame_choices (length cs) cs [] st) as Hreg2. rewrite Hch in Hreg2.
    simpl in Hreg2.
    destruct (Hrc cands) as (fn & Hfn & Hcall). rewrite <- Hreg2 in Hfn.
    rewrite (bind_run _ _ _ _ _ (getitem_run _ _ _ Hfn)).
    destruct (call_total fn [VList cands] [] s2 Hcall) as (t & s4 & Ht & Hreg4).
    rewrite (bind_run _ _ _ _ _ Ht).
    apply (IH Hget'). by rewrite Hreg4, Hreg2.
  - destruct (addAugToSequence_total key params augs st Hok) as (l1 & s1 & Hadd).
    rewrite (bind_run _ _ _ _ _ Hadd).
    apply addAugToSequence_Ok in Hadd as [Hreg _].
    apply (IH Hget'). by rewrite Hreg.
Qed.

Lemma steps_of_Compose (augs : list value) (st st' : interp) (p : value) :
  Compose augs st = (Ok p, st') →
  steps_of st' p = augs ∧ p = VObj (length (heap st)) ∧
  heap st' = heap st ++ [{| cls := "Compose"; attrs := [("transforms", VList augs)] |}].
Proof.
  unfold Compose, on_heap, new. intros [= <- <-]. split; [|done].
  unfold steps_of, getattr. cbn [heap].
  rewrite lookup_app_r by done. by rewrite Nat.sub_diag.
Qed.

(** The registered [random_choice] factory wraps the candidates it is
    given in one [RandomChoice] object. *)
Lemma random_choice_call (cands : list value) (h : list object) :
  __call__ random_choice [VList cands] [] h
  = (Ok (VObj (length h)),
     h ++ [{| cls := "RandomChoice"; attrs := [("transforms", VList cands)] |}]).
Proof. reflexivity. Qed.

(** C1. A configuration whose entries compile yields a pipeline, and
    the pipeline a configuration yields has one step for each of its
    entries, in the order of the entries: an ordinary entry gives the
    transform its factory returns, and a [random_choice] entry with k
    candidates gives the one transform that the [random_choice] factory
    returns for the list of the k candidates built. *)
Theorem create_AugTransforms_steps (augments : dict) (st : interp) :
  NoDup (map fst augments) →
  (Forall (entry_ok (AUG_METHODS st)) augments →
     ∃ p st', create_AugTransforms augments st = (Ok p, st')) ∧
  (∀ p st', create_AugTransforms augments st = (Ok p, st') →
     length (steps_of st' p) = length augments ∧
     Forall2 (built (AUG_METHODS st)) augments (steps_of st' p)).
Proof.
  intros Hnd.
  assert (∀ k v, In (k, v) augments → dict_get augments k = Some v) as Hget
    by (intros k v; by apply dict_get_In).
  split.
  - intros Hall. unfold create_AugTransforms.
    destruct (entries_total augments augments Hget [] st Hall) as (augs & s1 & He).
    rewrite (bind_run _ _ _ _ _ He). unfold Compose, on_heap, new. by eexists _, _.
  - intros p st' H. unfold create_AugTransforms in H.
    apply bind_Ok in H as (augs & s1 & He & Hc).
    apply steps_of_Compose in Hc as (-> & _ & _).
    apply (entries_Ok augments augments Hget) in He as (new & -> & Hnew).
    split; [|done]. symmetry. by apply Forall2_length in Hnew.
Qed.

(** ** The class-wise dispatcher *)

Lemma list_getitem_nonneg {A} (l : list A) (i : Z) (a : A) :
  0 <= i → (list_getitem l i = Ok a ↔ l !! Z.to_nat i = Some a).
Proof.
  intros Hi. unfold list_getitem.
  replace (i <? 0) with false by (symmetry; apply Z.ltb_ge; lia).
  destruct ((0 <=? i) && (i <? Z.of_nat (length l))) eqn:E.
  - destruct (l !! Z.to_nat i); split; congruence.
  - split; [done|]. intros Hl. apply lookup_lt_Some in Hl.
    rewrite andb_false_iff, Z.leb_gt, Z.ltb_ge in E. lia.
Qed.

Lemma list_getitem_in_range {A} (l : list A) (i : Z) :
  - Z.of_nat (length l) <= i < Z.of_nat (length l) → ∃ a, list_getitem l i = Ok a.
Proof.
  intros Hi. unfold list_getitem.
  set (j := if i <? 0 then i + Z.of_nat (length l) else i).
  assert (0 <= j < Z.of_nat (length l)) as Hj by (unfold j; destruct (Z.ltb_spec i 0); lia).
  replace ((0 <=? j) && (j <? Z.of_nat (length l))) with true
    by (symmetry; rewrite andb_true_iff; lia).
  destruct (lookup_lt_is_Some_2 l (Z.to_nat j)) as [a ->]; [lia|]. by exists a.
Qed.

Lemma list_getitem_out_of_range {A} (l : list A) (i : Z) :
  i < - Z.of_nat (length l) ∨ Z.of_nat (length l) <= i →
  list_getitem l i = Raise (IndexError "list index out of range").
Proof.
  intros Hi. unfold list_getitem.
  set (j := if i <? 0 then i + Z.of_nat (length l) else i).
  assert (j < 0 ∨ Z.of_nat (length l) <= j) as Hj by (unfold j; destruct (Z.ltb_spec i 0); lia).
  replace ((0 <=? j) && (j <? Z.of_nat (length l))) with false; [done|].
  symmetry. rewrite andb_false_iff, Z.leb_gt, Z.ltb_ge. lia.
Qed.

Lemma list_getitem_elem {A} (l : list A) (i : Z) (a : A) :
  list_getitem l i = Ok a → a ∈ l.
Proof.
  unfold list_getitem. destruct (_ && _); [|done].
  destruct (l !! _) eqn:E; [|done]. intros [= <-]. by apply list_elem_of_lookup_2 in E.
Qed.

Lemma getattr_state (v : value) (name : string) (st : interp) :
  snd (getattr v name st) = st.
Proof.
  unfold getattr. destruct v; try done.
  destruct (heap st !! r); [|done]. by destruct (dict_get _ _).
Qed.

Lemma getattr_steps (st : interp) (r : ref) (steps : list value) :
  heap st !! r = Some {| cls := "Compose"; attrs := [("transforms", VList steps)] |} →
  getattr (VObj r) "transforms" st = (Ok (VList steps), st) ∧ steps_of st (VObj r) = steps.
Proof. intros H. unfold steps_of, getattr. by rewrite H. Qed.

Lemma Compose_Ok (l : list value) (st : interp) :
  Compose l st
  = (Ok (VObj (length (heap st))),
     {| AUG_METHODS := AUG_METHODS st;
        heap := heap st ++ [{| cls := "Compose"; attrs := [("transforms", VList l)] |}] |}).
Proof. done. Qed.

Lemma picks_elem (steps l picked : list value) :
  picks steps l picked → Forall (λ s, s ∈ steps) picked.
Proof.
  induction 1 as [|v s l picked (i & _ & Hget) _ IH]; constructor; [|done].
  by apply list_getitem_elem in Hget.
Qed.

Section Select.

Variables (base : ref) (steps : list value).

Lemma select_Ok (l : list value) :
  ∀ (acc acc' : list value) (st st' : interp),
    holds_base base steps st →
    BaseClassWiseAugmenter.select (VObj base) l acc st = (Ok acc', st') →
    st' = st ∧ ∃ picked, acc' = acc ++ picked ∧ picks steps l picked.
Proof.
  induction l as [|v l IH]; intros acc acc' st st' Hb H; cbn [BaseClassWiseAugmenter.select] in H.
  - injection H as <- <-. split; [done|]. exists []. split; [by rewrite app_nil_r|constructor].
  - rewrite (bind_run _ _ _ _ _ (proj1 (getattr_steps _ _ _ Hb))) in H.
    apply bind_Ok in H as (n & s1 & Hn & H). unfold lift in Hn. injection Hn as Hn <-.
    apply bind_Ok in H as (s & s2 & Hs & H). unfold lift in Hs. injection Hs as Hs <-.
    apply (IH _ _ _ _ Hb) in H as (-> & picked & -> & Hp). split; [done|].
    exists (s :: picked). split; [by rewrite <- app_assoc|].
    constructor; [by exists n|done].
Qed.

Lemma select_total (l : list value) :
  ∀ (acc : list value) (st : interp),
    holds_base base steps st →
    Forall (λ v, ∃ i, py_int v = Ok i ∧
                      - Z.of_nat (length steps) <= i < Z.of_nat (length steps)) l →
    ∃ acc', BaseClassWiseAugmenter.select (VObj base) l acc st = (Ok acc', st).
Proof.
  induction l as [|v l IH]; intros acc st Hb Hall; cbn [BaseClassWiseAugmenter.select].
  - by eexists.
  - apply Forall_cons in Hall as [(i & Hi & Hrange) Hall].
    rewrite (bind_run _ _ _ _ _ (proj1 (getattr_steps _ _ _ Hb))).
    rewrite (bind_run _ _ st st i) by (unfold lift; by rewrite Hi).
    destruct (list_getitem_in_range steps i Hrange) as [s Hs].
    rewrite (bind_run _ _ st st s) by (unfold lift; cbn [getitem]; by rewrite Hs).
    by apply IH.
Qed.

(** An index out of range stops the selection. *)
Lemma select_out_of_range (l : list value) (v : value) (i : Z) :
  In v l → py_int v = Ok i →
  i < - Z.of_nat (length steps) ∨ Z.of_nat (length steps) <= i →
  ∀ (acc : list value) (st : interp),
    holds_base base steps st →
    ∃ e st', BaseClassWiseAugmenter.select (VObj base) l acc st = (Raise e, st').
Proof.
  intros Hin Hv Hi. induction l as [|v0 l IH]; intros acc st Hb; [done|].
  cbn [BaseClassWiseAugmenter.select].
  rewrite (bind_run _ _ _ _ _ (proj1 (getattr_steps _ _ _ Hb))).
  destruct (py_int v0) as [n|e] eqn:Hn.
  2:{ rewrite (bind_fail _ _ st st e) by done. by eexists _, _. }
  rewrite (bind_run _ _ st st n) by done.
  destruct (list_getitem steps n) as [s|e] eqn:Hs.
  2:{ rewrite (bind_fail _ _ st st e) by (unfold lift; cbn [getitem]; by rewrite Hs).
      by eexists _, _. }
  rewrite (bind_run _ _ st st s) by (unfold lift; cbn [getitem]; by rewrite Hs).
  destruct Hin as [->|Hin]; [|by apply IH].
  rewrite Hv in Hn. injection Hn as <-.
  by rewrite (list_getitem_out_of_range steps i Hi) in Hs.
Qed.

Lemma holds_base_Compose (l : list value) (st st' : interp) (p : value) :
  holds_base base steps st → Compose l st = (Ok p, st') → holds_base base steps st'.
Proof.
  unfold holds_base. intros Hb. rewrite Compose_Ok. intros [= <- <-]. cbn [heap].
  by apply lookup_app_l_Some.
Qed.

Lemma steps_of_Compose_later (l l' : list value) (st st' : interp) (r : ref) (p : value) :
  heap st !! r = Some {| cls := "Compose"; attrs := [("transforms", VList l)] |} →
  Compose l' st = (Ok p, st') →
  heap st' !! r = Some {| cls := "Compose"; attrs := [("transforms", VList l)] |}.
Proof.
  intros Hr. rewrite Compose_Ok. intros [= <- <-]. cbn [heap]. by apply lookup_app_l_Some.
Qed.

(** The sub-pipelines the loop over the mapping builds. *)
Lemma classes_Ok (items : dict) :
  ∀ (ct ct' : gmap string value) (st st' : interp),
    holds_base base steps st →
    (∀ c pc, ct !! c = Some pc →
       ∃ r l, pc = VObj r ∧ r ≠ base ∧ Forall (λ s, s ∈ steps) l ∧
         heap st !! r = Some {| cls := "Compose"; attrs := [("transforms", VList l)] |}) →
    BaseClassWiseAugmenter.classes (VObj base) items ct st = (Ok ct', st') →
    holds_base base steps st' ∧
    (∀ c pc, ct' !! c = Some pc →
       ∃ r l, pc = VObj r ∧ r ≠ base ∧ Forall (λ s, s ∈ steps) l ∧
         heap st' !! r = Some {| cls := "Compose"; attrs := [("transforms", VList l)] |}).
Proof.
  induction items as [|[c t] items IH]; intros ct ct' st st' Hb Hct H;
    cbn [BaseClassWiseAugmenter.classes] in H.
  { by injection H as <- <-. }
  apply bind_Ok in H as (l & s0 & Hl & H). unfold lift in Hl. injection Hl as Hl <-.
  apply bind_Ok in H as (picked & s1 & Hsel & H).
  apply (select_Ok _ _ _ _ _ Hb) in Hsel as (-> & picked' & -> & Hp). simpl in Hp.
  apply bind_Ok in H as (p & s2 & Hc & H).
  pose proof (holds_base_Compose _ _ _ _ Hb Hc) as Hb2.
  apply IH in H; [done|done|].
  intros c' pc Hpc. destruct (decide (c = c')) as [<-|Hne].
  - rewrite lookup_insert_eq in Hpc. injection Hpc as <-.
    rewrite Compose_Ok in Hc. injection Hc as <- <-.
    exists (length (heap st)), picked'. split; [done|]. split.
    { apply lookup_lt_Some in Hb. lia. }
    split.
    + by apply picks_elem in Hp.
    + cbn [heap]. rewrite lookup_app_r by done. by rewrite Nat.sub_diag.
  - rewrite lookup_insert_ne in Hpc by done.
    destruct (Hct _ _ Hpc) as (r & l0 & -> & Hr & Hl0 & Hh).
    exists r, l0. split; [done|]. split; [done|]. split; [done|].
    by apply (steps_of_Compose_later _ _ _ _ _ _ Hh Hc).
Qed.

(** With valid indices the loop ends, and each class gets the steps
    its indices pick. *)
Lemma classes_total (items : dict) :
  NoDup (map fst items) →
  Forall (λ ct, valid_indices (length steps) (snd ct)) items →
  ∀ (ct : gmap string value) (st : interp),
    holds_base base steps st →
    ∃ ct' st' ext,
      BaseClassWiseAugmenter.classes (VObj base) items ct st = (Ok ct', st') ∧
      heap st' = heap st ++ ext ∧
      (∀ c, c ∉ map fst items → ct' !! c = ct !! c) ∧
      (∀ c t l, In (c, t) items → py_iter (split_if_str t) = Ok l →
         ∃ pc, ct' !! c = Some pc ∧ picks steps l (steps_of st' pc)).
Proof.
  induction items as [|[c t] items IH]; intros Hnd Hall ct st Hb;
    cbn [BaseClassWiseAugmenter.classes].
  { exists ct, st, []. rewrite app_nil_r. by repeat split. }
  cbn [map fst] in Hnd. apply NoDup_cons in Hnd as [Hc Hnd].
  apply Forall_cons in Hall as [(l & Hl & Hvalid) Hall]. cbn [snd] in Hl.
  rewrite (bind_run _ _ st st l) by (unfold lift; by rewrite Hl).
  destruct (select_total l [] st Hb Hvalid) as [picked Hsel].
  rewrite (bind_run _ _ _ _ _ Hsel).
  apply (select_Ok _ _ _ _ _ Hb) in Hsel as (_ & picked' & -> & Hp). simpl in Hp.
  rewrite (bind_run _ _ _ _ _ (Compose_Ok picked' st)).
  set (st1 := {| AUG_METHODS := AUG_METHODS st; heap := heap st ++ _ |}).
  assert (holds_base base steps st1) as Hb1
    by (by apply (holds_base_Compose picked' st st1 (VObj (length (heap st))) Hb)).
  destruct (IH Hnd Hall (<[c := VObj (length (heap st))]> ct) st1 Hb1)
    as (ct' & st' & ext & Hrun & Hheap & Hother & Hin).
  exists ct', st', ({| cls := "Compose"; attrs := [("transforms", VList picked')] |} :: ext).
  split; [exact Hrun|]. split.
  { rewrite Hheap. unfold st1. cbn [heap]. by rewrite <- app_assoc. }
  split.
  { intros c' Hc'. apply not_elem_of_cons in Hc' as [Hne Hc'].
    rewrite (Hother c' Hc'). by rewrite lookup_insert_ne. }
  intros c' t' l' [[= <- <-]|Hin'] Hl'.
  - rewrite Hl in Hl'. injection Hl' as <-.
    exists (VObj (length (heap st))). split.
    { rewrite (Hother c Hc). by rewrite lookup_insert_eq. }
    assert (steps_of st' (VObj (length (heap st))) = picked') as ->; [|done].
    apply getattr_steps. rewrite Hheap. apply lookup_app_l_Some.
    unfold st1. cbn [heap]. rewrite lookup_app_r by done. by rewrite Nat.sub_diag.
  - by apply (Hin c' t' l').
Qed.

(** An index out of range anywhere in the mapping stops the loop. *)
Lemma classes_out_of_range (items : dict) (c : string) (t : value) (l : list value)
    (v : value) (i : Z) :
  In (c, t) items → py_iter (split_if_str t) = Ok l → In v l → py_int v = Ok i →
  i < - Z.of_nat (length steps) ∨ Z.of_nat (length steps) <= i →
  ∀ (ct : gmap string value) (st : interp),
    holds_base base steps st →
    ∃ e st', BaseClassWiseAugmenter.classes (VObj base) items ct st = (Raise e, st').
Proof.
  intros Hin Hl Hv Hint Hi. induction items as [|[c0 t0] items IH]; intros ct st Hb; [done|].
  cbn [BaseClassWiseAugmenter.classes].
  destruct (py_iter (split_if_str t0)) as [l0|e] eqn:Hl0.
  2:{ rewrite (bind_fail _ _ st st e) by done. by eexists _, _. }
  rewrite (bind_run _ _ st st l0) by done.
  destruct (BaseClassWiseAugmenter.select (VObj base) l0 [] st) as [[picked|e] s1] eqn:Hsel.
  2:{ rewrite (bind_fail _ _ _ _ _ Hsel). by eexists _, _. }
  rewrite (bind_run _ _ _ _ _ Hsel).
  destruct Hin as [[= -> ->]|Hin].
  - rewrite Hl in Hl0. injection Hl0 as <-.
    destruct (select_out_of_range l v i Hv Hint Hi [] st Hb) as (e & s' & Habs).
    by rewrite Habs in Hsel.
  - apply (select_Ok _ _ _ _ _ Hb) in Hsel as (-> & _).
    rewrite (bind_run _ _ _ _ _ (Compose_Ok picked st)).
    apply (IH Hin).
    by apply (holds_base_Compose picked st _ (VObj (length (heap st))) Hb).
Qed.

End Select.

Lemma create_AugTransforms_base (augments : dict) (st st1 : interp) (p : value) :
  create_AugTransforms augments st = (Ok p, st1) →
  ∃ r, p = VObj r ∧ holds_base r (steps_of st1 p) st1.
Proof.
  unfold create_AugTransforms. intros H.
  apply bind_Ok in H as (augs & s1 & _ & Hc).
  destruct (steps_of_Compose _ _ _ _ Hc) as (Hsteps & -> & Hheap).
  eexists. split; [done|]. unfold holds_base. rewrite Hsteps, Hheap.
  rewrite lookup_app_r by done. by rewrite Nat.sub_diag.
Qed.


(** C5 (amended). When some index of the mapping lies at or beyond the
    length of the default pipeline's step list, or below minus that
    length, construction fails with an exception. *)
Theorem BaseClassWiseAugmenter_index_out_of_range (base mapping : dict) (st st1 : interp)
    (p : value) (c : string) (t : value) (l : list value) (v : value) (i : Z) :
  create_AugTransforms base st = (Ok p, st1) →
  In (c, t) mapping → py_iter (split_if_str t) = Ok l → In v l → py_int v = Ok i →
  i < - Z.of_nat (length (steps_of st1 p)) ∨ Z.of_nat (length (steps_of st1 p)) <= i →
  ∃ e st2, BaseClassWiseAugmenter.__init__ base (Some mapping) st = (Raise e, st2).
Proof.
  intros Hcreate Hin Hl Hv Hint Hi. unfold BaseClassWiseAugmenter.__init__.
  rewrite (bind_run _ _ _ _ _ Hcreate).
  destruct (create_AugTransforms_base _ _ _ _ Hcreate) as (r & -> & Hb).
  destruct (classes_out_of_range r _ mapping c t l v i Hin Hl Hv Hint Hi ∅ st1 Hb)
    as (e & st2 & Hrun).
  exists e, st2. by rewrite (bind_fail _ _ _ _ _ Hrun).
Qed.

(** ** Who owns the steps *)

Lemma addAugToSequence_call (name : string) (params : value) (l l' : list value)
    (st st' : interp) :
  addAugToSequence name params l st = (Ok l', st') →
  ∃ t fn kwargs, l' = l ++ [t] ∧ AUG_METHODS st !! name = Some fn ∧
    __call__ fn [] kwargs (heap st) = (Ok t, heap st').
Proof.
  intros H. unfold addAugToSequence in H.
  destruct (str_eq params "no_params").
  - apply bind_Ok in H as (fn & s1 & Hfn & H). apply getitem_Ok in Hfn as [-> Hfn].
    apply bind_Ok in H as (t & s2 & Ht & H). injection H as <- <-.
    apply call_Ok in Ht as [Ht _]. by exists t, fn, [].
  - apply bind_Ok in H as ([] & s0 & Ha & H).
    destruct params; try done. injection Ha as <-.
    apply bind_Ok in H as (fn & s1 & Hfn & H). apply getitem_Ok in Hfn as [-> Hfn].
    apply bind_Ok in H as (t & s2 & Ht & H). injection H as <- <-.
    apply call_Ok in Ht as [Ht _]. by exists t, fn, d.
Qed.

Lemma addAugToSequence_fresh (name : string) (params : value) (l l' : list value)
    (st st' : interp) :
  fresh_registry (AUG_METHODS st) →
  addAugToSequence name params l st = (Ok l', st') →
  ∃ r ext, l' = l ++ [VObj r] ∧ heap st' = heap st ++ ext ∧
           (length (heap st) <= r < length (heap st'))%nat.
Proof.
  intros Hreg H. apply addAugToSequence_call in H as (t & fn & kwargs & -> & Hfn & Hcall).
  destruct (Hreg _ _ Hfn _ _ _ _ _ Hcall) as (r & ext & -> & Hext & Hr).
  by exists r, ext.
Qed.

Lemma choices_grow (n : nat) (cs : list value) :
  ∀ (l l' : list value) (st st' : interp),
    fresh_registry (AUG_METHODS st) →
    choices n cs l st = (Ok l', st') → ∃ ext, heap st' = heap st ++ ext.
Proof.
  induction cs as [|c cs IH]; intros l l' st st' Hreg H; cbn [choices] in H.
  - injection H as <- <-. exists []. by rewrite app_nil_r.
  - destruct (single_item c) as [[k v]|]; [|done].
    apply bind_Ok in H as (l1 & s1 & Hadd & H).
    pose proof (frame_addAugToSequence k v l st) as Hf. rewrite Hadd in Hf. simpl in Hf.
    apply (addAugToSequence_fresh _ _ _ _ _ _ Hreg) in Hadd as (r & ext1 & _ & Hext1 & _).
    apply IH in H as [ext2 Hext2]; [|by rewrite Hf].
    exists (ext1 ++ ext2). by rewrite Hext2, Hext1, <- app_assoc.
Qed.

(** The steps a compilation appends are objects it has created. *)
Lemma entries_fresh (augments items : dict) :
  ∀ (augs augs' : list value) (st st' : interp),
    fresh_registry (AUG_METHODS st) →
    entries augments items augs st = (Ok augs', st') →
    ∃ new ext, augs' = augs ++ new ∧ heap st' = heap st ++ ext ∧
      Forall (λ s, ∃ r, s = VObj r ∧ (length (heap st) <= r < length (heap st'))%nat) new.
Proof.
  induction items as [|[key params] items IH]; intros augs augs' st st' Hreg H;
    cbn [entries] in H.
  { injection H as <- <-. exists [], []. by rewrite !app_nil_r. }
  assert (∀ (r0 : ref) (s1 : interp) (ext1 : list object) (new : list value) (ext2 : list object),
            heap s1 = heap st ++ ext1 → (length (heap st) <= r0 < length (heap s1))%nat →
            heap st' = heap s1 ++ ext2 →
            Forall (λ s, ∃ r, s = VObj r ∧ (length (heap s1) <= r < length (heap st'))%nat) new →
            Forall (λ s, ∃ r, s = VObj r ∧ (length (heap st) <= r < length (heap st'))%nat)
                   (VObj r0 :: new)) as Hglue.
  { intros r0 s1 ext1 new ext2 H1 Hr0 H2 Hnew.
    assert (length (heap s1) <= length (heap st'))%nat
      by (rewrite H2, length_app; lia).
    constructor; [exists r0; split; [done|lia]|].
    eapply Forall_impl; [exact Hnew|]. intros s (r & -> & Hr). exists r. split; [done|lia]. }
  destruct (String.eqb key "random_choice").
  - apply bind_Ok in H as ([] & s0 & Ha & H).
    assert (s0 = st) as -> by (destruct (isinstance_list params); by injection Ha).
    apply bind_Ok in H as (cs & s1 & Hcs & H).
    assert (s1 = st) as ->.
    { destruct (dict_get augments key); [|done]. unfold lift in Hcs. by injection Hcs. }
    apply bind_Ok in H as (cands & s2 & Hch & H).
    pose proof (frame_choices (match params with VList l => length l | _ => 0%nat end) cs [] st)
      as Hf2. rewrite Hch in Hf2. simpl in Hf2.
    apply (choices_grow _ _ _ _ _ _ Hreg) in Hch as [ext2 Hext2].
    apply bind_Ok in H as (fn & s3 & Hfn & H). apply getitem_Ok in Hfn as [-> Hfn].
    apply bind_Ok in H as (t & s4 & Ht & H). apply call_Ok in Ht as [Ht Hf4].
    rewrite Hf2 in Hfn.
    destruct (Hreg _ _ Hfn _ _ _ _ _ Ht) as (r & ext4 & -> & Hext4 & Hr).
    apply IH in H as (new & ext & -> & Hext & Hnew); [|by rewrite Hf4, Hf2].
    exists (VObj r :: new), (ext2 ++ ext4 ++ ext). split; [by rewrite <- app_assoc|].
    split; [by rewrite Hext, Hext4, Hext2, <- !app_assoc|].
    apply (Hglue r s4 (ext2 ++ ext4) new ext); [by rewrite Hext4, Hext2, <- app_assoc| |done|done].
    rewrite Hext2 in Hr. rewrite length_app in Hr. lia.
  - apply bind_Ok in H as (l1 & s1 & Hadd & H).
    pose proof (frame_addAugToSequence key params augs st) as Hf. rewrite Hadd in Hf.
    simpl in Hf.
    apply (addAugToSequence_fresh _ _ _ _ _ _ Hreg) in Hadd as (r & ext1 & -> & Hext1 & Hr).
    apply IH in H as (new & ext & -> & Hext & Hnew); [|by rewrite Hf].
    exists (VObj r :: new), (ext1 ++ ext). split; [by rewrite <- app_assoc|].
    split; [by rewrite Hext, Hext1, <- app_assoc|].
    by apply (Hglue r s1 ext1 new ext).
Qed.

Lemma create_AugTransforms_fresh (augments : dict) (st st' : interp) (p : value) :
  fresh_registry (AUG_METHODS st) →
  create_AugTransforms augments st = (Ok p, st') →
  ∃ r ext, p = VObj r ∧ heap st' = heap st ++ ext ∧ holds_base r (steps_of st' p) st' ∧
    Forall (λ s, ∃ r, s = VObj r ∧ (length (heap st) <= r < length (heap st'))%nat)
           (steps_of st' p).
Proof.
  intros Hreg H. destruct (create_AugTransforms_base _ _ _ _ H) as (r & -> & Hb).
  unfold create_AugTransforms in H. apply bind_Ok in H as (augs & s1 & He & Hc).
  apply (entries_fresh _ _ _ _ _ _ Hreg) in He as (new & ext & -> & Hext & Hnew).
  destruct (steps_of_Compose _ _ _ _ Hc) as (Hsteps & _ & Hheap).
  exists r, (ext ++ [{| cls := "Compose"; attrs := [("transforms", VList ([] ++ new))] |}]).
  split; [done|]. split; [by rewrite Hheap, Hext, <- app_assoc|]. split; [done|].
  rewrite Hsteps. simpl. eapply Forall_impl; [exact Hnew|].
  intros s (r' & -> & Hr'). exists r'. split; [done|]. rewrite Hheap, length_app. simpl. lia.
Qed.

(** C3 (amended). Two pipelines compiled by separate calls of
    [create_AugTransforms], with factories that return the objects
    they create, have no step object in common. The sub-pipelines of a
    class-wise dispatcher do not own their steps: each of their steps
    is a step object of the dispatcher's default pipeline. *)
Theorem pipeline_step_ownership :
  (∀ (a1 a2 : dict) (st1 st1' st2 st2' : interp) (p1 p2 s : value),
     fresh_registry (AUG_METHODS st1) → fresh_registry (AUG_METHODS st2) →
     create_AugTransforms a1 st1 = (Ok p1, st1') →
     heap st1' `prefix_of` heap st2 →
     create_AugTransforms a2 st2 = (Ok p2, st2') →
     s ∈ steps_of st2' p1 → s ∈ steps_of st2' p2 → False) ∧
  (∀ (base mapping : dict) (st st' : interp) (d : BaseClassWiseAugmenter.t)
     (ct : gmap string value) (c : string) (pc s : value),
     BaseClassWiseAugmenter.__init__ base (Some mapping) st = (Ok d, st') →
     BaseClassWiseAugmenter.class_transforms d = Some ct → ct !! c = Some pc →
     s ∈ steps_of st' pc → s ∈ steps_of st' (BaseClassWiseAugmenter.base_transforms d)).
Proof.
  split.
  - intros a1 a2 st1 st1' st2 st2' p1 p2 s Hreg1 Hreg2 H1 [k Hk] H2 Hs1 Hs2.
    destruct (create_AugTransforms_fresh _ _ _ _ Hreg1 H1) as (r1 & ext1 & -> & Hext1 & Hb1 & Hn1).
    destruct (create_AugTransforms_fresh _ _ _ _ Hreg2 H2) as (r2 & ext2 & -> & Hext2 & Hb2 & Hn2).
    assert (steps_of st2' (VObj r1) = steps_of st1' (VObj r1)) as Heq.
    { apply getattr_steps. rewrite Hext2, Hk. do 2 apply lookup_app_l_Some. exact Hb1. }
    rewrite Heq in Hs1.
    rewrite Forall_forall in Hn1, Hn2.
    destruct (Hn1 _ Hs1) as (r & -> & Hr). destruct (Hn2 _ Hs2) as (r' & [= <-] & Hr').
    rewrite Hk, length_app in Hr'. lia.
  - intros base mapping st st' d ct c pc s H Hd Hc Hs.
    unfold BaseClassWiseAugmenter.__init__ in H.
    apply bind_Ok in H as (p & st1 & Hcreate & H).
    destruct (create_AugTransforms_base _ _ _ _ Hcreate) as (r & -> & Hb).
    apply bind_Ok in H as (ct' & st2 & Hcl & H). injection H as <- <-.
    cbn [BaseClassWiseAugmenter.class_transforms BaseClassWiseAugmenter.base_transforms] in *.
    injection Hd as ->.
    apply (classes_Ok r _ mapping ∅ ct st1 st2 Hb) in Hcl as [Hb2 Hct]; [|by intros ? ?].
    destruct (Hct _ _ Hc) as (r' & l & -> & _ & Hl & Hh).
    destruct (getattr_steps _ _ _ Hh) as [_ Hl']. rewrite Hl' in Hs.
    destruct (getattr_steps _ _ _ Hb2) as [_ ->].
    rewrite Forall_forall in Hl. by apply Hl.
Qed.

(** ** The registry *)

(** C8. Registering a function under a name that is taken raises
    [ValueError] and leaves the interpreter, and with it the first
    registration, as it was; registering under a free name stores the
    function and returns a wrapper with the function's name that calls
    the function with the arguments it gets. *)
Theorem register_method_duplicate (st : interp) (fn : pyfun) :
  (∀ first, AUG_METHODS st !! __name__ fn = Some first →
     register_method fn st
     = (Raise (ValueError ("An entry is already registered under the name '"
                           +:+ __name__ fn +:+ "'.")), st) ∧
     AUG_METHODS (snd (register_method fn st)) !! __name__ fn = Some first) ∧
  (AUG_METHODS st !! __name__ fn = None →
     ∃ wrapper st', register_method fn st = (Ok wrapper, st') ∧
       AUG_METHODS st' = <[__name__ fn := fn]> (AUG_METHODS st) ∧ heap st' = heap st ∧
       __name__ wrapper = __name__ fn ∧
       ∀ args kwargs h, __call__ wrapper args kwargs h = __call__ fn args kwargs h).
Proof.
  split.
  - intros first Hfirst. unfold register_method. by rewrite Hfirst.
  - intros Hfree. unfold register_method. rewrite Hfree. by eexists _, _.
Qed.

(** ** The registry the module builds *)

Lemma fresh_new (c : string) (a : dict) : fresh_m (new c a).
Proof.
  intros h v h' [= <- <-]. eexists _, _. split; [done|]. split; [done|].
  rewrite length_app. simpl. lia.
Qed.

Lemma fresh_T (c : string) (args : list value) (kwargs : dict) : fresh_m (T c args kwargs).
Proof. apply fresh_new. Qed.

Lemma fresh_raise (e : exn) : fresh_m (raise e).
Proof. by intros h v h'. Qed.

Lemma fresh_bind_lift {A} (r : result A) (k : A → M (list object) value) :
  (∀ a, fresh_m (k a)) → fresh_m (bind (lift r) k).
Proof.
  intros Hk h v h' H. apply bind_Ok in H as (a & h1 & Ha & H).
  unfold lift in Ha. injection Ha as _ <-. by apply (Hk a).
Qed.

Lemma fresh_bind_alloc (m : M (list object) value) (k : value → M (list object) value) :
  fresh_m m → (∀ a, fresh_m (k a)) → fresh_m (bind m k).
Proof.
  intros Hm Hk h v h' H. apply bind_Ok in H as (a & h1 & Ha & H).
  apply Hm in Ha as (r1 & ext1 & _ & -> & Hr1).
  apply Hk in H as (r & ext & -> & -> & Hr).
  exists r, (ext1 ++ ext). split; [done|]. split; [by rewrite <- app_assoc|].
  rewrite !length_app in Hr. rewrite !length_app. lia.
Qed.

Lemma fresh_def (name : string) (sig : list param) (body : dict → M (list object) value) :
  (∀ b, fresh_m (body b)) → fresh_call (def name sig body).
Proof. intros Hb args kwargs. by apply fresh_bind_lift. Qed.

Lemma fresh_fn (name : string) (f : list value → dict → M (list object) value) :
  (∀ args kwargs, fresh_m (f args kwargs)) → fresh_call {| __name__ := name; __call__ := f |}.
Proof. intros Hf args kwargs. apply Hf. Qed.

Ltac fresh_tac :=
  repeat first
    [ apply fresh_new | apply fresh_T | apply fresh_raise
    | apply fresh_def; intros ?
    | apply fresh_bind_lift; intros ?
    | apply fresh_bind_alloc; [|intros ?]
    | match goal with |- fresh_m (match ?x with _ => _ end) => destruct x end ].

Lemma decorated_fresh (listdir : string → list string) (eval : string → result value) :
  Forall fresh_call (decorated listdir eval).
Proof.
  unfold decorated.
  repeat (apply Forall_cons; split;
          [first [ solve [fresh_tac]
                 | apply fresh_fn; intros ? ?; solve [fresh_tac] ]|]).
  apply Forall_nil_2.
Qed.

Lemma register_all_lookup (fns : list pyfun) :
  ∀ (st : interp) (name : string) (fn : pyfun),
    AUG_METHODS (snd (register_all fns st)) !! name = Some fn →
    AUG_METHODS st !! name = Some fn ∨ fn ∈ fns.
Proof.
  induction fns as [|f fns IH]; intros st name fn H; cbn [register_all] in H; [by left|].
  unfold bind in H. unfold register_method at 1 in H.
  destruct (AUG_METHODS st !! __name__ f) eqn:E; cbn [snd] in H; [by left|].
  apply IH in H as [H|H]; [|right; by apply list_elem_of_further].
  cbn [AUG_METHODS] in H. destruct (decide (__name__ f = name)) as [<-|Hne].
  - rewrite lookup_insert_eq in H. injection H as <-. right. apply list_elem_of_here.
  - rewrite lookup_insert_ne in H by done. by left.
Qed.

Lemma import_module_fresh (listdir : string → list string) (eval : string → result value) :
  fresh_registry (AUG_METHODS (snd (import_module listdir eval))).
Proof.
  intros name fn H. apply register_all_lookup in H as [H|H]; [done|].
  pose proof (decorated_fresh listdir eval) as Hall. rewrite Forall_forall in Hall.
  by apply Hall.
Qed.

(** ** The noise pool *)

Lemma filter_no_jpg (names : list string) :
  (∀ name, In name names → ends_with_jpg name = false) → List.filter matches_jpg names = [].
Proof.
  induction names as [|n names IH]; intros H; [done|]. simpl.
  assert (matches_jpg n = false) as ->.
  { unfold matches_jpg. rewrite (H n) by (by left). by destruct (list_ascii_of_string n) as [|[[] [] [] [] [] [] [] []] ?]. }
  apply IH. intros name Hin. apply H. by right.
Qed.


(** ** The theorems at sample inputs *)

Lemma run_eq {S A} (r : result A * S) (a : A) : fst r = Ok a → r = (Ok a, snd r).
Proof. destruct r as [r s]. simpl. by intros ->. Defined.

Lemma sample_compiled_eq : sample_compiled = (Ok (VObj 5%nat), snd sample_compiled).
Proof. apply run_eq. vm_compute. reflexivity. Defined.

Example sample_choice_step :
  steps_of (snd sample_compiled) (VObj 5%nat) = [VObj 0%nat; VObj 3%nat; VObj 4%nat] ∧
  heap (snd sample_compiled) !! 3%nat
  = Some {| cls := "RandomChoice";
            attrs := [("transforms", VList [VObj 1%nat; VObj 2%nat])] |}.
Proof. split; vm_compute; reflexivity. Qed.

Lemma PadIfNeed_call_square_witness :
  ∃ out, PadIfNeed.__call__ rgb_of_value
           {| PadIfNeed.pad_value := VTuple [VInt 0; VInt 0; VInt 0];
              PadIfNeed.mode := VStr "edge" |} (solid 2 3 white) = Ok out ∧
         width out = 3 ∧ height out = 3.
Proof.
  destruct (PadIfNeed_call_square rgb_of_value (VInt 0) (VStr "edge")
              {| PadIfNeed.pad_value := VTuple [VInt 0; VInt 0; VInt 0];
                 PadIfNeed.mode := VStr "edge" |} (solid 2 3 white) black)
    as (out & Hout & Hw & Hh & _).
  - reflexivity.
  - reflexivity.
  - unfold wf_image. simpl. repeat split; try lia. repeat constructor.
  - exists out. split; [exact Hout|]. split; [exact Hw|exact Hh].
Defined.

Lemma register_method_duplicate_witness :
  (register_method second_resize sample_interp
   = (Raise (ValueError "An entry is already registered under the name 'resize'."),
      sample_interp) ∧
   AUG_METHODS (snd (register_method second_resize sample_interp)) !! "resize" = Some resize) ∧
  (∃ wrapper st', register_method my_transform sample_interp = (Ok wrapper, st') ∧
                  __name__ wrapper = "my_transform").
Proof.
  split.
  - apply (proj1 (register_method_duplicate sample_interp second_resize) resize).
    vm_compute. reflexivity.
  - destruct (proj2 (register_method_duplicate sample_interp my_transform))
      as (w & st' & H & _ & _ & Hn & _); [vm_compute; reflexivity|].
    exists w, st'. split; [exact H|exact Hn].
Defined.


Lemma sample_config_NoDup : NoDup (map fst sample_config).
Proof. apply (bool_decide_unpack _). vm_compute. exact I. Defined.

Lemma sample_config_ok : Forall (entry_ok (AUG_METHODS sample_interp)) sample_config.
Proof.
  repeat apply Forall_cons_2; [| | |apply Forall_nil_2].
  - exists [("size", VInt 224)]. split; [reflexivity|]. exists resize.
    split; [vm_compute; reflexivity|]. intros h. eexists _, _. reflexivity.
  - eexists. split; [reflexivity|]. split.
    + repeat apply Forall_cons_2; [| |apply Forall_nil_2].
      * eexists _, _. split; [reflexivity|]. exists []. split; [reflexivity|].
        exists random_invert. split; [vm_compute; reflexivity|]. intros h. eexists _, _. reflexivity.
      * eexists _, _. split; [reflexivity|]. exists [("p", VFloat (1 # 2))].
        split; [reflexivity|]. exists random_grayscale.
        split; [vm_compute; reflexivity|]. intros h. eexists _, _. reflexivity.
    + intros cands. exists random_choice. split; [vm_compute; reflexivity|].
      intros h. eexists _, _. reflexivity.
  - exists []. split; [reflexivity|]. exists to_tensor.
    split; [vm_compute; reflexivity|]. intros h. eexists _, _. reflexivity.
Defined.

Lemma create_AugTransforms_steps_witness :
  (∃ p st', create_AugTransforms sample_config sample_interp = (Ok p, st')) ∧
  length (steps_of (snd sample_compiled) (VObj 5%nat)) = length sample_config.
Proof.
  destruct (create_AugTransforms_steps sample_config sample_interp sample_config_NoDup)
    as [Htotal Hsteps].
  split.
  - apply Htotal. exact sample_config_ok.
  - apply (Hsteps (VObj 5%nat) (snd sample_compiled)). exact sample_compiled_eq.
Defined.

Lemma sample_mapping_valid :
  Forall (λ ct, valid_indices (length (steps_of (snd sample_compiled) (VObj 5%nat))) (snd ct))
         sample_mapping.
Proof.
  change (length (steps_of (snd sample_compiled) (VObj 5%nat))) with 3%nat.
  repeat apply Forall_cons_2; [| |apply Forall_nil_2].
  - eexists. split; [reflexivity|].
    repeat apply Forall_cons_2; [| |apply Forall_nil_2];
      (eexists; split; [vm_compute; reflexivity|lia]).
  - eexists. split; [reflexivity|].
    repeat apply Forall_cons_2; [| | |apply Forall_nil_2];
      (eexists; split; [vm_compute; reflexivity|lia]).
Defined.


Lemma BaseClassWiseAugmenter_index_out_of_range_witness :
  ∃ e st2, BaseClassWiseAugmenter.__init__ sample_config (Some [("cat", VStr "0 3")]) sample_interp
           = (Raise e, st2).
Proof.
  apply (BaseClassWiseAugmenter_index_out_of_range sample_config [("cat", VStr "0 3")]
           sample_interp (snd sample_compiled) (VObj 5%nat) "cat" (VStr "0 3")
           [VStr "0"; VStr "3"] (VStr "3") 3).
  - exact sample_compiled_eq.
  - left. reflexivity.
  - reflexivity.
  - right. left. reflexivity.
  - reflexivity.
  - right. change (length (steps_of (snd sample_compiled) (VObj 5%nat))) with 3%nat. lia.
Defined.

(** C5 (as stated) fails: the index -1 is no position of 0..2, yet
    construction succeeds and the class gets the last step. *)
Lemma index_validation_counterexample :
  ¬ (0 <= -1 <= Z.of_nat (length (steps_of (snd sample_compiled) (VObj 5%nat))) - 1) ∧
  fst (BaseClassWiseAugmenter.__init__ sample_config (Some [("cat", VList [VInt (-1)])])
         sample_interp)
  = Ok {| BaseClassWiseAugmenter.base_transforms := VObj 5%nat;
          BaseClassWiseAugmenter.class_transforms := Some {[ "cat" := VObj 6%nat ]} |} ∧
  steps_of (snd (BaseClassWiseAugmenter.__init__ sample_config
                   (Some [("cat", VList [VInt (-1)])]) sample_interp)) (VObj 6%nat)
  = [VObj 4%nat].
Proof. split; [lia|]. split; vm_compute; reflexivity. Qed.

(** C3 (as stated) fails: the sub-pipeline of class [cat] is another
    pipeline than the default one, and its step is the default
    pipeline's second step, the same object. *)
Lemma dispatcher_shares_steps_counterexample :
  fst (BaseClassWiseAugmenter.__init__ sample_config (Some [("cat", VList [VInt 1])])
         sample_interp)
  = Ok {| BaseClassWiseAugmenter.base_transforms := VObj 5%nat;
          BaseClassWiseAugmenter.class_transforms := Some {[ "cat" := VObj 6%nat ]} |} ∧
  VObj 6%nat ≠ VObj 5%nat ∧
  steps_of (snd (BaseClassWiseAugmenter.__init__ sample_config
                   (Some [("cat", VList [VInt 1])]) sample_interp)) (VObj 5%nat)
  = [VObj 0%nat; VObj 3%nat; VObj 4%nat] ∧
  steps_of (snd (BaseClassWiseAugmenter.__init__ sample_config
                   (Some [("cat", VList [VInt 1])]) sample_interp)) (VObj 6%nat)
  = [VObj 3%nat].
Proof.
  split; [vm_compute; reflexivity|]. split; [discriminate|].
  split; vm_compute; reflexivity.
Qed.

Lemma pipeline_step_ownership_witness :
  (∀ s, s ∈ steps_of (snd (create_AugTransforms sample_config (snd sample_compiled))) (VObj 5%nat) →
        s ∈ steps_of (snd (create_AugTransforms sample_config (snd sample_compiled))) (VObj 11%nat) →
        False) ∧
  (∀ d st' ct pc s,
     BaseClassWiseAugmenter.__init__ sample_config (Some sample_mapping) sample_interp = (Ok d, st') →
     BaseClassWiseAugmenter.class_transforms d = Some ct → ct !! "cat" = Some pc →
     s ∈ steps_of st' pc → s ∈ steps_of st' (BaseClassWiseAugmenter.base_transforms d)).
Proof.
  destruct pipeline_step_ownership as [Hown Halias]. split.
  - intros s. apply (Hown sample_config sample_config sample_interp (snd sample_compiled)
                       (snd sample_compiled) _ (VObj 5%nat) (VObj 11%nat) s).
    + apply import_module_fresh.
    + unfold sample_compiled. rewrite frame_create_AugTransforms. apply import_module_fresh.
    + exact sample_compiled_eq.
    + exists []. symmetry. apply app_nil_r.
    + apply run_eq. vm_compute. reflexivity.
  - intros d st' ct pc s. apply Halias.
Defined.

(** * Further properties *)

(** ** Square padding, further *)

(** X1. The constructor of the square padding accepts exactly an
    integer fill or a fill of length 3, with a mode that is [edge] or
    [average]; it stores an integer fill as a triple and any other
    fill, and the mode, as given. *)
Theorem PadIfNeed_init_accepts (pv md : value) :
  ((∃ self, PadIfNeed.__init__ pv md = Ok self) ↔
   (isinstance_int pv = true ∨ py_len pv = Ok 3) ∧
   (str_eq md "edge" = true ∨ str_eq md "average" = true)) ∧
  (∀ self, PadIfNeed.__init__ pv md = Ok self →
     PadIfNeed.pad_value self = (if isinstance_int pv then VTuple [pv; pv; pv] else pv) ∧
     PadIfNeed.mode self = md).
Proof.
  unfold PadIfNeed.__init__, rbind. split; [split|].
  - intros [self H]. destruct (isinstance_int pv) eqn:Ei.
    + split; [by left|]. destruct (str_eq md "edge"); [by left|].
      destruct (str_eq md "average"); [by right|done].
    + destruct (py_len pv) as [n|e] eqn:El; [|done].
      destruct (n =? 3) eqn:En; [|done]. apply Z.eqb_eq in En as ->.
      split; [by right|]. destruct (str_eq md "edge"); [by left|].
      destruct (str_eq md "average"); [by right|done].
  - intros [Hpv Hmd].
    assert (str_eq md "edge" || str_eq md "average" = true) as ->
      by (apply orb_true_iff; exact Hmd).
    destruct (isinstance_int pv) eqn:Ei; [by eexists|].
    destruct Hpv as [Habs|Hlen]; [done|]. rewrite Hlen. by eexists.
  - intros self H. destruct (isinstance_int pv) eqn:Ei.
    + destruct (str_eq md "edge" || str_eq md "average"); [|done]. by injection H as <-.
    + destruct (py_len pv) as [n|e]; [|done]. destruct (n =? 3); [|done].
      destruct (str_eq md "edge" || str_eq md "average"); [|done]. by injection H as <-.
Qed.

Lemma Ok_inj {A} (a b : A) : Ok a = Ok b → a = b.
Proof. by intros [=]. Qed.

Lemma Image_new_wf (w h : Z) (c : pixel) (im : Image) :
  Image_new (w, h) c = Ok im → wf_image im ∧ width im = w ∧ height im = h.
Proof.
  unfold Image_new. destruct ((w <? 0) || (h <? 0)) eqn:E; [done|].
  apply orb_false_iff in E as [Hw Hh]. apply Z.ltb_ge in Hw, Hh.
  intros [= <-]. split; [|done]. unfold wf_image. simpl.
  split; [done|]. split; [done|]. split; [by rewrite length_replicate|].
  apply Forall_replicate. by rewrite length_replicate.
Qed.

Lemma Image_eq (a b : Image) :
  width a = width b → height a = height b → rows a = rows b → a = b.
Proof. destruct a, b. simpl. by intros -> -> ->. Qed.

(** Pasting an image over a canvas of its own size gives the image. *)
Lemma paste_over (canvas image : Image) :
  wf_image canvas → wf_image image →
  width canvas = width image → height canvas = height image →
  paste canvas image (0, 0) = image.
Proof.
  intros Hc Hi Hw Hh.
  apply Image_eq; [done|done|].
  apply rows_ext; [by apply wf_paste|done|done|done|].
  intros x y. rewrite getpixel_paste. rewrite !Z.sub_0_r.
  destruct (decide (0 <= x < width image ∧ 0 <= y < height image)) as [[Hx Hy]|Hout].
  - destruct (getpixel_inside image x y Hi Hx Hy) as [p Hp].
    destruct (getpixel_inside canvas x y Hc) as [q Hq]; [lia|lia|].
    by rewrite Hq, Hp.
  - rewrite (getpixel_outside image) by done.
    rewrite (getpixel_outside canvas) by (rewrite Hw, Hh; done). done.
Qed.

(** A square image is returned as it is. *)
Lemma PadIfNeed_call_fixed (getcolor : value → result pixel)
    (self : PadIfNeed.t) (image : Image) (fill : pixel) :
  getcolor (PadIfNeed.pad_value self) = Ok fill →
  wf_image image → width image = height image →
  PadIfNeed.__call__ getcolor self image = Ok image.
Proof.
  intros Hcol Hwf Hsq. pose proof Hwf as (Hw0 & Hh0 & _).
  unfold PadIfNeed.__call__. rewrite Hcol. cbn [rbind].
  rewrite <- Hsq, Z.max_id, Z.sub_diag. change (0 / 2) with 0.
  destruct (Image_new (width image, width image) fill) as [canvas|e] eqn:Hnew.
  2:{ unfold Image_new in Hnew.
      destruct ((width image <? 0) || (width image <? 0)) eqn:E; [|done].
      apply orb_true_iff in E. rewrite !Z.ltb_lt in E. lia. }
  apply Image_new_wf in Hnew as (Hcwf & Hcw & Hch). cbn [rbind].
  rewrite (paste_over canvas image) by (try done; lia).
  by destruct (str_eq (PadIfNeed.mode self) "average").
Qed.

Lemma PadIfNeed_call_Ok (getcolor : value → result pixel) (self : PadIfNeed.t)
    (image out : Image) :
  wf_image image → PadIfNeed.__call__ getcolor self image = Ok out →
  wf_image out ∧ width out = height out.
Proof.
  intros Hwf. unfold PadIfNeed.__call__.
  destruct (getcolor (PadIfNeed.pad_value self)) as [fill|e]; [|done]. cbn [rbind].
  destruct (Image_new _ fill) as [canvas|e] eqn:Hnew; [|done]. cbn [rbind].
  apply Image_new_wf in Hnew as (Hcwf & Hcw & Hch).
  assert (∀ box, wf_image (paste canvas image box) ∧
                 width (paste canvas image box) = height (paste canvas image box)) as Hp.
  { intros box. split; [by apply wf_paste|]. destruct (paste_size canvas image box) as [-> ->].
    lia. }
  destruct (str_eq _ _); intros H; apply Ok_inj in H; rewrite <- H; apply Hp.
Qed.

Lemma wf_solid (w h : nat) (c : pixel) : wf_image (solid w h c).
Proof.
  unfold wf_image, solid. cbn [width height rows].
  split; [lia|]. split; [lia|]. rewrite !Nat2Z.id. split; [by rewrite length_replicate|].
  apply Forall_replicate. by rewrite length_replicate.
Qed.

(** X2. Square padding returns a square image as it is, in either
    mode, and is therefore idempotent: padding its own result changes
    nothing. *)
Theorem PadIfNeed_call_idempotent (getcolor : value → result pixel)
    (self : PadIfNeed.t) (image : Image) :
  wf_image image →
  (∀ fill, getcolor (PadIfNeed.pad_value self) = Ok fill → width image = height image →
     PadIfNeed.__call__ getcolor self image = Ok image) ∧
  (∀ out, PadIfNeed.__call__ getcolor self image = Ok out →
     PadIfNeed.__call__ getcolor self out = Ok out).
Proof.
  intros Hwf. split.
  - intros fill Hcol Hsq. by apply (PadIfNeed_call_fixed getcolor self image fill).
  - intros out Hcall. destruct (PadIfNeed_call_Ok _ _ _ _ Hwf Hcall) as [Hwf' Hsq].
    assert (∃ fill, getcolor (PadIfNeed.pad_value self) = Ok fill) as [fill Hcol].
    { unfold PadIfNeed.__call__ in Hcall.
      destruct (getcolor (PadIfNeed.pad_value self)) as [fill|e]; [by exists fill|done]. }
    by apply (PadIfNeed_call_fixed getcolor self out fill).
Qed.

Lemma PadIfNeed_call_idempotent_witness :
  PadIfNeed.__call__ rgb_of_value
    {| PadIfNeed.pad_value := VTuple [VInt 0; VInt 0; VInt 0]; PadIfNeed.mode := VStr "edge" |}
    (solid 3 3 white) = Ok (solid 3 3 white) ∧
  ∃ out,
    PadIfNeed.__call__ rgb_of_value
      {| PadIfNeed.pad_value := VTuple [VInt 0; VInt 0; VInt 0];
         PadIfNeed.mode := VStr "average" |} (solid 2 5 white) = Ok out ∧
    PadIfNeed.__call__ rgb_of_value
      {| PadIfNeed.pad_value := VTuple [VInt 0; VInt 0; VInt 0];
         PadIfNeed.mode := VStr "average" |} out = Ok out.
Proof.
  split.
  - apply (proj1 (PadIfNeed_call_idempotent rgb_of_value _ (solid 3 3 white)
                    (wf_solid 3 3 white)) black); reflexivity.
  - eexists. split; [reflexivity|].
    apply (proj2 (PadIfNeed_call_idempotent rgb_of_value _ (solid 2 5 white)
                    (wf_solid 2 5 white))).
    reflexivity.
Defined.

(** ** Patch cutout, further *)

Lemma Cutout_gate_closed (self : Cutout.t) (image : Image) (rs : RandomState) :
  Qle_bool (gate rs) (Cutout.prob self) = false →
  fst (Cutout.__call__ self image rs) = Ok image.
Proof.
  intros Hg. unfold Cutout.__call__. unfold bind at 1. unfold random_random at 1.
  change (Qmake (py_stream rs 0%nat mod Zpos two53) two53) with (gate rs).
  by rewrite Hg.
Qed.

(** What a call does up to the loop, once the gate lets it through. *)
Lemma Cutout_call_open (self : Cutout.t) (image : Image) (rs : RandomState) :
  Qle_bool (gate rs) (Cutout.prob self) = true →
  Cutout.__call__ self image rs
  = bind (lift (Image_new (mask_w self rs, Cutout.length self) black))
         (λ mask, Cutout.holes self mask (sample_h self image) (sample_w self image)
                    (Z.to_nat (Cutout.n_holes self)) image)
         {| py_stream := λ n, py_stream rs (S (S n)); np_stream := np_stream rs |}.
Proof.
  intros Hg. unfold Cutout.__call__. unfold bind at 1. unfold random_random at 1.
  change (Qmake (py_stream rs 0%nat mod Zpos two53) two53) with (gate rs).
  rewrite Hg. cbn [negb]. reflexivity.
Qed.

(** X3. With no hole to cut ([n_holes] at most 0) the patch cutout
    returns the input image, whatever the draws, the image and the
    sampling ranges. *)
Theorem Cutout_call_no_holes (self : Cutout.t) (image : Image) (rs : RandomState) :
  Cutout.n_holes self <= 0 →
  0 <= Cutout.length self →
  (0 <= Cutout.ratio self <= 1)%Q →
  fst (Cutout.__call__ self image rs) = Ok image.
Proof.
  intros Hn HL Hr.
  destruct (Qle_bool (gate rs) (Cutout.prob self)) eqn:Hg; [|by apply Cutout_gate_closed].
  rewrite (Cutout_call_open _ _ _ Hg).
  pose proof (mask_w_nonneg self rs Hr HL) as Hmw.
  unfold bind, lift, Image_new.
  replace ((mask_w self rs <? 0) || (Cutout.length self <? 0)) with false
    by (symmetry; rewrite orb_false_iff; lia).
  replace (Z.to_nat (Cutout.n_holes self)) with 0%nat by lia. reflexivity.
Qed.

Lemma Cutout_call_no_holes_witness :
  fst (Cutout.__call__ (Cutout.__init__ 0 4 (1 # 2) None None 1) (solid 0 0 white)
         draws_two_holes) = Ok (solid 0 0 white).
Proof.
  apply Cutout_call_no_holes.
  - simpl. lia.
  - simpl. lia.
  - split; unfold Qle; simpl; lia.
Defined.

Lemma randint_empty (low high : Z) (rs : RandomState) :
  high <= low → np_random_randint low high rs = (Raise (ValueError "low >= high"), rs).
Proof.
  intros H. unfold np_random_randint. destruct (low >=? high) eqn:E; [done|lia].
Qed.

(** X4. When the call is applied with at least one hole and a sampling
    range is empty, as the default range of an image without rows or
    columns is, the patch cutout raises [ValueError]. *)
Theorem Cutout_call_empty_range (self : Cutout.t) (image : Image) (rs : RandomState) :
  Qle_bool (gate rs) (Cutout.prob self) = true →
  1 <= Cutout.n_holes self →
  0 <= Cutout.length self →
  (0 <= Cutout.ratio self <= 1)%Q →
  snd (sample_h self image) <= fst (sample_h self image) ∨
  snd (sample_w self image) <= fst (sample_w self image) →
  fst (Cutout.__call__ self image rs) = Raise (ValueError "low >= high").
Proof.
  intros Hg Hn HL Hr Hempty. rewrite (Cutout_call_open _ _ _ Hg).
  pose proof (mask_w_nonneg self rs Hr HL) as Hmw.
  unfold bind at 1. unfold lift, Image_new.
  replace ((mask_w self rs <? 0) || (Cutout.length self <? 0)) with false
    by (symmetry; rewrite orb_false_iff; lia).
  destruct (Z.to_nat (Cutout.n_holes self)) as [|n] eqn:En; [lia|].
  cbn [Cutout.holes]. unfold bind at 1. unfold Cutout.hole. unfold bind at 1.
  destruct (Z_lt_le_dec (fst (sample_h self image)) (snd (sample_h self image))) as [Hh|Hh].
  - destruct Hempty as [Hempty|Hempty]; [lia|].
    rewrite (randint_in_range _ _ _ Hh). unfold bind at 1.
    by rewrite (randint_empty _ _ _ Hempty).
  - by rewrite (randint_empty _ _ _ Hh).
Qed.

Lemma Cutout_call_empty_range_witness :
  fst (Cutout.__call__ one_hole (solid 4 0 white) draws_one_hole)
  = Raise (ValueError "low >= high").
Proof.
  apply Cutout_call_empty_range.
  - reflexivity.
  - simpl. lia.
  - simpl. lia.
  - split; unfold Qle; simpl; lia.
  - left. simpl. lia.
Defined.

(** X5. When the call is applied with a negative side length, the
    patch cutout raises [ValueError] before it cuts any hole. *)
Theorem Cutout_call_negative_length (self : Cutout.t) (image : Image) (rs : RandomState) :
  Qle_bool (gate rs) (Cutout.prob self) = true →
  Cutout.length self < 0 →
  fst (Cutout.__call__ self image rs) = Raise (ValueError "Width and height must be >= 0").
Proof.
  intros Hg HL. rewrite (Cutout_call_open _ _ _ Hg).
  unfold bind, lift, Image_new.
  replace ((mask_w self rs <? 0) || (Cutout.length self <? 0)) with true; [done|].
  symmetry. rewrite orb_true_iff. right. lia.
Qed.

Lemma Cutout_call_negative_length_witness :
  fst (Cutout.__call__ (Cutout.__init__ 1 (-2) 0 None None 1) (solid 4 4 white) draws_one_hole)
  = Raise (ValueError "Width and height must be >= 0").
Proof.
  apply Cutout_call_negative_length; [reflexivity|simpl; lia].
Defined.

Lemma Cutout_holes_size (self : Cutout.t) (mask : Image) (h w : Z * Z) (n : nat) :
  ∀ (img out : Image) (rs rs' : RandomState),
    Cutout.holes self mask h w n img rs = (Ok out, rs') →
    width out = width img ∧ height out = height img ∧ (wf_image img → wf_image out).
Proof.
  induction n as [|n IH]; intros img out rs rs' H; cbn [Cutout.holes] in H.
  - apply pair_equal_spec in H as [H _]. apply Ok_inj in H as <-. done.
  - apply bind_Ok in H as (img' & rs1 & Hhole & H).
    unfold Cutout.hole in Hhole.
    apply bind_Ok in Hhole as (y & rs2 & _ & Hhole).
    apply bind_Ok in Hhole as (x & rs3 & _ & Hhole).
    apply pair_equal_spec in Hhole as [Hhole _]. apply Ok_inj in Hhole as <-.
    apply IH in H as (-> & -> & Hwf).
    match goal with |- context [paste img mask ?b] =>
      destruct (paste_size img mask b) as [-> ->] end.
    split; [done|]. split; [done|]. intros Hi. apply Hwf. by apply wf_paste.
Qed.

(** X6. Whenever the patch cutout returns, the image it returns has
    the size of the input, and is well formed if the input is. *)
Theorem Cutout_call_size (self : Cutout.t) (image out : Image) (rs rs' : RandomState) :
  Cutout.__call__ self image rs = (Ok out, rs') →
  width out = width image ∧ height out = height image ∧ (wf_image image → wf_image out).
Proof.
  intros H. destruct (Qle_bool (gate rs) (Cutout.prob self)) eqn:Hg.
  - rewrite (Cutout_call_open _ _ _ Hg) in H.
    apply bind_Ok in H as (mask & rs1 & _ & H). by apply Cutout_holes_size in H.
  - pose proof (Cutout_gate_closed self image rs Hg) as Hc. rewrite H in Hc.
    apply Ok_inj in Hc as <-. done.
Qed.

Lemma Cutout_call_size_witness :
  ∃ out, fst (Cutout.__call__ two_holes (solid 8 8 white) draws_two_holes) = Ok out ∧
         width out = 8 ∧ height out = 8.
Proof.
  destruct (Cutout.__call__ two_holes (solid 8 8 white) draws_two_holes) as [r rs'] eqn:E.
  assert (∃ out, r = Ok out) as [out ->].
  { assert (fst (Cutout.__call__ two_holes (solid 8 8 white) draws_two_holes) = r) as <-
      by (by rewrite E).
    eexists. vm_compute. reflexivity. }
  destruct (Cutout_call_size _ _ _ _ _ E) as (Hw & Hh & _).
  exists out. split; [reflexivity|]. split; [exact Hw|exact Hh].
Defined.

(** ** class RandomColorJitter *)

(** X7. The gate of the random colour jitter is closed at probability
    0 or below: the input image is returned and torchvision's generator
    is left alone, whatever the draw. At probability 1 or above it is
    open: the result is the colour jitter's. *)
Theorem RandomColorJitter_forward_gate (torch_state : Type)
    (ColorJitter_forward : Image → M torch_state Image)
    (prob : Q) (img : Image) (s : RandomState * torch_state) :
  ((prob <= 0)%Q →
     fst (RandomColorJitter_forward torch_state ColorJitter_forward prob img s) = Ok img ∧
     snd (snd (RandomColorJitter_forward torch_state ColorJitter_forward prob img s)) = snd s) ∧
  ((1 <= prob)%Q →
     fst (RandomColorJitter_forward torch_state ColorJitter_forward prob img s)
     = fst (ColorJitter_forward img (snd s)) ∧
     snd (snd (RandomColorJitter_forward torch_state ColorJitter_forward prob img s))
     = snd (ColorJitter_forward img (snd s))).
Proof.
  pose proof (gate_range (fst s)) as [Hg0 Hg1].
  unfold RandomColorJitter_forward, bind, with_python, random_random.
  change (Qmake (py_stream (fst s) 0%nat mod Zpos two53) two53) with (gate (fst s)).
  split.
  - intros Hp. assert (Qle_bool prob (gate (fst s)) = true) as ->
      by (apply Qle_bool_iff; lra). done.
  - intros Hp. destruct (Qle_bool prob (gate (fst s))) eqn:E.
    + apply Qle_bool_iff in E. lra.
    + cbn [negb]. unfold with_torch. cbn [fst snd].
      by destruct (ColorJitter_forward img (snd s)).
Qed.

Lemma RandomColorJitter_forward_gate_witness :
  fst (RandomColorJitter_forward unit (λ im, ret (solid 1 1 black)) 0 (solid 1 1 white)
         (draws_one_hole, tt)) = Ok (solid 1 1 white) ∧
  fst (RandomColorJitter_forward unit (λ im, ret (solid 1 1 black)) 1 (solid 1 1 white)
         (draws_one_hole, tt)) = Ok (solid 1 1 black).
Proof.
  split.
  - apply (RandomColorJitter_forward_gate unit (λ im, ret (solid 1 1 black)) 0).
    unfold Qle. simpl. lia.
  - apply (RandomColorJitter_forward_gate unit (λ im, ret (solid 1 1 black)) 1).
    unfold Qle. simpl. lia.
Defined.

(** ** The registry, further *)

Lemma insert_sorted_perm (s : string) (l : list string) : insert_sorted s l ≡ₚ s :: l.
Proof.
  induction l as [|x l IH]; simpl; [done|].
  destruct (String.leb s x); [done|]. rewrite IH. apply Permutation_swap.
Qed.

Lemma sorted_perm (l : list string) : sorted l ≡ₚ l.
Proof.
  induction l as [|x l IH]; simpl; [done|]. by rewrite insert_sorted_perm, IH.
Qed.

Lemma insert_sorted_Sorted (s : string) (l : list string) :
  Sorted (λ a b, String.leb a b = true) l →
  Sorted (λ a b, String.leb a b = true) (insert_sorted s l).
Proof.
  induction l as [|x l IH]; intros Hl; simpl.
  - by repeat constructor.
  - destruct (String.leb s x) eqn:E.
    + constructor; [done|]. by constructor.
    + apply Sorted_inv in Hl as [Hl Hhd]. constructor; [by apply IH|].
      assert (String.leb x s = true) as Hxs
        by (destruct (String.leb_total s x) as [H|H]; [congruence|done]).
      destruct l as [|y l]; simpl; [by constructor|].
      destruct (String.leb s y); constructor; [done|].
      by apply HdRel_inv in Hhd.
Qed.

Lemma sorted_Sorted (l : list string) : Sorted (λ a b, String.leb a b = true) (sorted l).
Proof.
  induction l as [|x l IH]; simpl; [constructor|]. by apply insert_sorted_Sorted.
Qed.

Lemma list_augments_elem (st : interp) (name : string) :
  name ∈ list_augments st ↔ is_Some (AUG_METHODS st !! name).
Proof.
  unfold list_augments. rewrite sorted_perm. rewrite list_elem_of_fmap. split.
  - intros [[k fn] [-> Hin]]. apply elem_of_map_to_list in Hin. by exists fn.
  - intros [fn Hfn]. exists (name, fn). split; [done|]. by apply elem_of_map_to_list.
Qed.

(** X8. [list_augments] returns the registered names, each once, in
    ascending order. *)
Theorem list_augments_sorted (st : interp) :
  Sorted (λ a b, String.leb a b = true) (list_augments st) ∧
  NoDup (list_augments st) ∧
  ∀ name, name ∈ list_augments st ↔ is_Some (AUG_METHODS st !! name).
Proof.
  split; [apply sorted_Sorted|]. split; [|apply list_augments_elem].
  unfold list_augments. rewrite sorted_perm. apply NoDup_fst_map_to_list.
Qed.

(** X9. After a registration that succeeds, [list_augments] lists
    the new name and the names it listed before, and no other. *)
Theorem list_augments_register (fn wrapper : pyfun) (st st' : interp) :
  register_method fn st = (Ok wrapper, st') →
  ∀ name, name ∈ list_augments st' ↔ name = __name__ fn ∨ name ∈ list_augments st.
Proof.
  intros H name. unfold register_method in H.
  destruct (AUG_METHODS st !! __name__ fn) eqn:E; [done|].
  apply pair_equal_spec in H as [_ <-].
  rewrite !list_augments_elem. cbn [AUG_METHODS].
  destruct (decide (__name__ fn = name)) as [<-|Hne].
  - rewrite lookup_insert_eq. split; [by left|by eexists].
  - rewrite lookup_insert_ne by done. split; [by right|]. by intros [->|].
Qed.

Lemma list_augments_register_witness :
  "my_transform" ∈ list_augments (snd (register_method my_transform sample_interp)).
Proof.
  apply (list_augments_register my_transform
           {| __name__ := "my_transform";
              __call__ := λ args kwargs, __call__ my_transform args kwargs |}
           sample_interp).
  - apply run_eq. vm_compute. reflexivity.
  - left. reflexivity.
Defined.

Lemma register_method_run (fn : pyfun) (st : interp) :
  AUG_METHODS st !! __name__ fn = None →
  register_method fn st
  = (Ok {| __name__ := __name__ fn; __call__ := λ args kwargs, __call__ fn args kwargs |},
     {| AUG_METHODS := <[__name__ fn := fn]> (AUG_METHODS st); heap := heap st |}).
Proof. intros H. unfold register_method. by rewrite H. Qed.

(** X10. Registering functions one after the other, as importing the
    module does, succeeds when their names are distinct and free:
    afterwards each of the names resolves to its function, the other
    names resolve as before, and the heap is as it was. *)
Theorem register_all_distinct (fns : list pyfun) (st : interp) :
  NoDup (map __name__ fns) →
  (∀ fn, fn ∈ fns → AUG_METHODS st !! __name__ fn = None) →
  ∃ st', register_all fns st = (Ok tt, st') ∧ heap st' = heap st ∧
    (∀ fn, fn ∈ fns → AUG_METHODS st' !! __name__ fn = Some fn) ∧
    (∀ name, name ∉ map __name__ fns → AUG_METHODS st' !! name = AUG_METHODS st !! name).
Proof.
  revert st. induction fns as [|f fns IH]; intros st Hnd Hfree; cbn [register_all].
  { exists st. split; [done|]. split; [done|]. split; [|done].
    intros fn Hin. by apply elem_of_nil in Hin. }
  cbn [map] in Hnd. apply NoDup_cons in Hnd as [Hf Hnd].
  rewrite (bind_run _ _ _ _ _ (register_method_run f st (Hfree f (list_elem_of_here _ _)))).
  destruct (IH {| AUG_METHODS := <[__name__ f := f]> (AUG_METHODS st); heap := heap st |} Hnd)
    as (st' & Hrun & Hheap & Hin & Hout).
  { intros fn Hfn. cbn [AUG_METHODS]. rewrite lookup_insert_ne.
    - apply Hfree. by apply list_elem_of_further.
    - intros Heq. apply Hf. rewrite Heq. by apply list_elem_of_fmap_2. }
  exists st'. split; [exact Hrun|]. split; [exact Hheap|]. split.
  - intros fn Hfn. apply elem_of_cons in Hfn as [->|Hfn]; [|by apply Hin].
    rewrite (Hout _ Hf). cbn [AUG_METHODS]. by rewrite lookup_insert_eq.
  - intros name Hname. cbn [map] in Hname. apply not_elem_of_cons in Hname as [Hne Hname].
    rewrite (Hout _ Hname). cbn [AUG_METHODS]. by rewrite lookup_insert_ne.
Qed.

Lemma register_all_distinct_witness :
  ∃ st', register_all [second_resize; my_transform] {| AUG_METHODS := ∅; heap := [] |}
         = (Ok tt, st') ∧
         AUG_METHODS st' !! "resize" = Some second_resize.
Proof.
  destruct (register_all_distinct [second_resize; my_transform]
              {| AUG_METHODS := ∅; heap := [] |}) as (st' & Hrun & _ & Hin & _).
  - apply (bool_decide_unpack _). vm_compute. exact I.
  - intros fn _. apply lookup_empty.
  - exists st'. split; [exact Hrun|]. apply (Hin second_resize). apply list_elem_of_here.
Defined.

(** X11. Registering functions one after the other stops at the first
    function whose name is taken, by the registry or by an earlier
    function of the list: it raises [ValueError] with that name, and
    the functions before it stay registered. *)
Theorem register_all_duplicate (pre post : list pyfun) (f : pyfun) (st : interp) :
  NoDup (map __name__ pre) →
  (∀ fn, fn ∈ pre → AUG_METHODS st !! __name__ fn = None) →
  is_Some (AUG_METHODS st !! __name__ f) ∨ __name__ f ∈ map __name__ pre →
  ∃ st', register_all (pre ++ f :: post) st
         = (Raise (ValueError ("An entry is already registered under the name '"
                               +:+ __name__ f +:+ "'.")), st') ∧
    (∀ fn, fn ∈ pre → AUG_METHODS st' !! __name__ fn = Some fn) ∧
    (∀ name, name ∉ map __name__ pre → AUG_METHODS st' !! name = AUG_METHODS st !! name).
Proof.
  revert st. induction pre as [|g pre IH]; intros st Hnd Hfree Hdup; cbn [app register_all].
  - destruct Hdup as [[first Hfirst]|Hin]; [|by apply elem_of_nil in Hin].
    exists st. unfold bind, register_method. rewrite Hfirst.
    split; [done|]. split; [|done]. intros fn Hin. by apply elem_of_nil in Hin.
  - cbn [map] in Hnd. apply NoDup_cons in Hnd as [Hg Hnd].
    rewrite (bind_run _ _ _ _ _ (register_method_run g st (Hfree g (list_elem_of_here _ _)))).
    destruct (IH {| AUG_METHODS := <[__name__ g := g]> (AUG_METHODS st); heap := heap st |} Hnd)
      as (st' & Hrun & Hin & Hout).
    { intros fn Hfn. cbn [AUG_METHODS]. rewrite lookup_insert_ne.
      - apply Hfree. by apply list_elem_of_further.
      - intros Heq. apply Hg. rewrite Heq. by apply list_elem_of_fmap_2. }
    { cbn [AUG_METHODS]. destruct (decide (__name__ g = __name__ f)) as [Heq|Hne].
      - left. rewrite Heq, lookup_insert_eq. by eexists.
      - rewrite lookup_insert_ne by done. destruct Hdup as [Hdup|Hdup]; [by left|].
        cbn [map] in Hdup. apply elem_of_cons in Hdup as [Heq|Hdup]; [done|by right]. }
    exists st'. split; [exact Hrun|]. split.
    + intros fn Hfn. apply elem_of_cons in Hfn as [->|Hfn]; [|by apply Hin].
      rewrite (Hout _ Hg). cbn [AUG_METHODS]. by rewrite lookup_insert_eq.
    + intros name Hname. cbn [map] in Hname. apply not_elem_of_cons in Hname as [Hne Hname].
      rewrite (Hout _ Hname). cbn [AUG_METHODS]. by rewrite lookup_insert_ne.
Qed.

Lemma register_all_duplicate_witness :
  ∃ st', register_all ([my_transform] ++ second_resize :: []) sample_interp
         = (Raise (ValueError "An entry is already registered under the name 'resize'."), st') ∧
         AUG_METHODS st' !! "my_transform" = Some my_transform.
Proof.
  destruct (register_all_duplicate [my_transform] [] second_resize sample_interp)
    as (st' & Hrun & Hin & _).
  - apply (bool_decide_unpack _). vm_compute. exact I.
  - intros fn Hfn. apply list_elem_of_singleton in Hfn as ->. vm_compute. reflexivity.
  - left. exists resize. vm_compute. reflexivity.
  - exists st'. split; [exact Hrun|]. apply (Hin my_transform). apply list_elem_of_here.
Defined.

(** ** The compiler, further *)

Lemma entries_prefix (augments pre rest : dict) :
  (∀ k v, In (k, v) pre → dict_get augments k = Some v) →
  ∀ (augs : list value) (st : interp),
    Forall (entry_ok (AUG_METHODS st)) pre →
    ∃ augs' st', AUG_METHODS st' = AUG_METHODS st ∧
      entries augments (pre ++ rest) augs st = entries augments rest augs' st'.
Proof.
  induction pre as [|[key params] pre IH]; intros Hget augs st Hall; cbn [app entries].
  { by exists augs, st. }
  assert (∀ k v, In (k, v) pre → dict_get augments k = Some v) as Hget'
    by (intros k v Hin; apply Hget; by right).
  apply Forall_cons in Hall as [Hok Hall]. unfold entry_ok in Hok. cbn [fst snd] in Hok.
  destruct (String.eqb key "random_choice") eqn:Ekey.
  - apply String.eqb_eq in Ekey as ->.
    destruct Hok as (cs & -> & Hcs & Hrc).
    cbn [isinstance_list assert]. rewrite (bind_run _ _ st st tt) by done.
    rewrite (Hget "random_choice" (VList cs)) by (by left).
    rewrite (bind_run _ _ st st cs) by done.
    destruct (choices_total (length cs) cs [] st Hcs) as (cands & s2 & Hch).
    rewrite (bind_run _ _ _ _ _ Hch).
    pose proof (frame_choices (length cs) cs [] st) as Hreg2. rewrite Hch in Hreg2.
    simpl in Hreg2.
    destruct (Hrc cands) as (fn & Hfn & Hcall). rewrite <- Hreg2 in Hfn.
    rewrite (bind_run _ _ _ _ _ (getitem_run _ _ _ Hfn)).
    destruct (call_total fn [VList cands] [] s2 Hcall) as (t & s4 & Ht & Hreg4).
    rewrite (bind_run _ _ _ _ _ Ht).
    destruct (IH Hget' (augs ++ [t]) s4) as (augs' & st' & Hreg & Hrun).
    { by rewrite Hreg4, Hreg2. }
    exists augs', st'. split; [|exact Hrun]. by rewrite Hreg, Hreg4, Hreg2.
  - destruct (addAugToSequence_total key params augs st Hok) as (l1 & s1 & Hadd).
    rewrite (bind_run _ _ _ _ _ Hadd).
    apply addAugToSequence_Ok in Hadd as [Hreg1 _].
    destruct (IH Hget' l1 s1) as (augs' & st' & Hreg & Hrun).
    { by rewrite Hreg1. }
    exists augs', st'. split; [|exact Hrun]. by rewrite Hreg, Hreg1.
Qed.

(** Compilation fails where the first entry that fails does. *)
Lemma create_AugTransforms_fails_at (pre post : dict) (entry : string * value)
    (st : interp) (e : exn) :
  NoDup (map fst (pre ++ entry :: post)) →
  Forall (entry_ok (AUG_METHODS st)) pre →
  (∀ augs st', AUG_METHODS st' = AUG_METHODS st →
     fst (entries (pre ++ entry :: post) (entry :: post) augs st') = Raise e) →
  fst (create_AugTransforms (pre ++ entry :: post) st) = Raise e.
Proof.
  intros Hnd Hpre Hfail. unfold create_AugTransforms.
  destruct (entries_prefix (pre ++ entry :: post) pre (entry :: post)) with (augs := @nil value)
    (st := st) as (augs' & st' & Hreg & Hrun); [|done|].
  { intros k v Hin. apply dict_get_In; [done|]. apply in_or_app. by left. }
  unfold bind. rewrite Hrun. specialize (Hfail augs' st' Hreg).
  destruct (entries _ _ augs' st') as [[l|e'] s1]; simpl in Hfail; [done|]. by injection Hfail as ->.
Qed.

(** X12. A configuration whose first entry that does not compile names
    a transform that is not registered raises [KeyError] with that
    name. *)
Theorem create_AugTransforms_unknown_name (pre post : dict) (name : string) (params : value)
    (kwargs : dict) (st : interp) :
  NoDup (map fst (pre ++ (name, params) :: post)) →
  Forall (entry_ok (AUG_METHODS st)) pre →
  name ≠ "random_choice" →
  kwargs_of params = Some kwargs →
  AUG_METHODS st !! name = None →
  fst (create_AugTransforms (pre ++ (name, params) :: post) st) = Raise (KeyError name).
Proof.
  intros Hnd Hpre Hname Hkw Hnone. apply create_AugTransforms_fails_at; [done|done|].
  intros augs st' Hreg. cbn [entries].
  apply String.eqb_neq in Hname. rewrite Hname.
  unfold bind at 1. unfold addAugToSequence. unfold kwargs_of in Hkw.
  destruct (str_eq params "no_params").
  - unfold bind at 1. unfold AUG_METHODS_getitem. by rewrite Hreg, Hnone.
  - destruct params; try done. cbn [isinstance_dict assert].
    unfold bind at 1. cbn [ret]. unfold bind at 1. unfold AUG_METHODS_getitem.
    by rewrite Hreg, Hnone.
Qed.

Lemma create_AugTransforms_unknown_name_witness :
  fst (create_AugTransforms
         ([("resize", VDict [("size", VInt 224)])] ++ ("sharpen", VStr "no_params") :: [])
         sample_interp) = Raise (KeyError "sharpen").
Proof.
  apply (create_AugTransforms_unknown_name _ _ _ _ []).
  - apply (bool_decide_unpack _). vm_compute. exact I.
  - apply Forall_cons_2; [|apply Forall_nil_2].
    exists [("size", VInt 224)]. split; [reflexivity|]. exists resize.
    split; [vm_compute; reflexivity|]. intros h. eexists _, _. reflexivity.
  - discriminate.
  - reflexivity.
  - vm_compute. reflexivity.
Defined.

(** X13. A configuration whose first entry that does not compile has
    parameters that are neither ['no_params'] nor a dict raises
    [AssertionError], whether its name is registered or not. *)
Theorem create_AugTransforms_bad_params (pre post : dict) (name : string) (params : value)
    (st : interp) :
  NoDup (map fst (pre ++ (name, params) :: post)) →
  Forall (entry_ok (AUG_METHODS st)) pre →
  name ≠ "random_choice" →
  kwargs_of params = None →
  fst (create_AugTransforms (pre ++ (name, params) :: post) st)
  = Raise (AssertionError "参数必须以键值对[dict]的形式传进来").
Proof.
  intros Hnd Hpre Hname Hkw. apply create_AugTransforms_fails_at; [done|done|].
  intros augs st' Hreg. cbn [entries].
  apply String.eqb_neq in Hname. rewrite Hname.
  unfold bind at 1. unfold addAugToSequence. unfold kwargs_of in Hkw.
  destruct (str_eq params "no_params"); [done|].
  by destruct params.
Qed.

Lemma create_AugTransforms_bad_params_witness :
  fst (create_AugTransforms ([] ++ ("resize", VInt 224) :: []) sample_interp)
  = Raise (AssertionError "参数必须以键值对[dict]的形式传进来").
Proof.
  apply create_AugTransforms_bad_params.
  - apply (bool_decide_unpack _). vm_compute. exact I.
  - apply Forall_nil_2.
  - discriminate.
  - reflexivity.
Defined.

Lemma choices_prefix (n : nat) (cpre crest : list value) :
  ∀ (l : list value) (st : interp),
    Forall (λ c, ∃ k v, c = VDict [(k, v)] ∧ plain_ok (AUG_METHODS st) k v) cpre →
    ∃ l' st', choices n (cpre ++ crest) l st = choices n crest l' st'.
Proof.
  induction cpre as [|c cpre IH]; intros l st Hall; cbn [app choices]; [by eexists _, _|].
  apply Forall_cons in Hall as [(k & v & -> & Hok) Hall].
  cbn [single_item].
  destruct (addAugToSequence_total k v l st Hok) as (l1 & s1 & Hadd).
  rewrite (bind_run _ _ _ _ _ Hadd).
  apply addAugToSequence_Ok in Hadd as [Hreg _].
  apply IH. by rewrite Hreg.
Qed.

(** X14. A configuration whose first entry that does not compile is a
    [random_choice] that is not a list, or whose list reaches an item
    that is not a dict of exactly one key, raises [AssertionError]. *)
Theorem create_AugTransforms_bad_choice (pre post : dict) (params : value) (st : interp) :
  NoDup (map fst (pre ++ ("random_choice", params) :: post)) →
  Forall (entry_ok (AUG_METHODS st)) pre →
  (isinstance_list params = false →
     fst (create_AugTransforms (pre ++ ("random_choice", params) :: post) st)
     = Raise (AssertionError "random_choice必须要把增强方法写成列表形式传进来")) ∧
  (∀ cpre c cpost,
     params = VList (cpre ++ c :: cpost) →
     Forall (λ c, ∃ k v, c = VDict [(k, v)] ∧ plain_ok (AUG_METHODS st) k v) cpre →
     single_item c = None →
     ∃ msg, fst (create_AugTransforms (pre ++ ("random_choice", params) :: post) st)
            = Raise (AssertionError msg)).
Proof.
  intros Hnd Hpre. split.
  - intros Hlist. apply create_AugTransforms_fails_at; [done|done|].
    intros augs st' Hreg. cbn [entries String.eqb Ascii.eqb Bool.eqb].
    unfold bind at 1. by rewrite Hlist.
  - intros cpre c cpost -> Hcpre Hc. eexists.
    apply create_AugTransforms_fails_at; [done|done|].
    intros augs st' Hreg. cbn [entries String.eqb Ascii.eqb Bool.eqb].
    cbn [isinstance_list assert]. rewrite (bind_run _ _ st' st' tt) by done.
    rewrite (dict_get_In _ "random_choice" (VList (cpre ++ c :: cpost)) Hnd)
      by (apply in_or_app; right; by left).
    rewrite (bind_run _ _ st' st' (cpre ++ c :: cpost)) by done.
    destruct (choices_prefix (length (cpre ++ c :: cpost)) cpre (c :: cpost) [] st')
      as (l' & s1 & Hrun); [by rewrite Hreg|].
    unfold bind at 1. rewrite Hrun. cbn [choices]. rewrite Hc. reflexivity.
Qed.

Lemma create_AugTransforms_bad_choice_witness :
  fst (create_AugTransforms ([] ++ ("random_choice", VStr "random_invert") :: []) sample_interp)
  = Raise (AssertionError "random_choice必须要把增强方法写成列表形式传进来") ∧
  ∃ msg,
    fst (create_AugTransforms
           ([] ++ ("random_choice",
                   VList ([VDict [("random_invert", VStr "no_params")]]
                          ++ VDict [("resize", VStr "no_params"); ("to_tensor", VStr "no_params")]
                          :: [])) :: []) sample_interp)
    = Raise (AssertionError msg).
Proof.
  split.
  - apply (create_AugTransforms_bad_choice [] [] (VStr "random_invert") sample_interp).
    + apply (bool_decide_unpack _). vm_compute. exact I.
    + apply Forall_nil_2.
    + reflexivity.
  - eapply (create_AugTransforms_bad_choice [] [] _ sample_interp).
    + apply (bool_decide_unpack _). vm_compute. exact I.
    + apply Forall_nil_2.
    + reflexivity.
    + apply Forall_cons_2; [|apply Forall_nil_2].
      eexists _, _. split; [reflexivity|]. exists []. split; [reflexivity|].
      exists random_invert. split; [vm_compute; reflexivity|]. intros h. eexists _, _. reflexivity.
    + reflexivity.
Defined.

(** ** The compiler only adds to the heap *)

Section Grows.

Variable reg : gmap string pyfun.
Hypothesis Hreg : grows_registry reg.

Lemma grows_same {A} (m : M interp A) : (∀ st, snd (m st) = st) → grows reg m.
Proof. intros Hm st Hst. rewrite Hm. split; [exact Hst|]. exists []. by rewrite app_nil_r. Qed.

Lemma grows_ret {A} (a : A) : grows reg (ret a).
Proof. by apply grows_same. Qed.

Lemma grows_raise {A} (e : exn) : grows reg (raise (A := A) e).
Proof. by apply grows_same. Qed.

Lemma grows_lift {A} (r : result A) : grows reg (lift r).
Proof. by apply grows_same. Qed.

Lemma grows_assert (b : bool) (msg : string) : grows reg (assert b msg).
Proof. destruct b; [apply grows_ret|apply grows_raise]. Qed.

Lemma grows_bind {A B} (m : M interp A) (k : A → M interp B) :
  grows reg m → (∀ a, grows reg (k a)) → grows reg (bind m k).
Proof.
  intros Hm Hk st Hst. unfold bind. destruct (Hm st Hst) as [H1 [ext1 H2]].
  destruct (m st) as [[a|e] s1]; simpl in *; [|by eauto].
  destruct (Hk a s1 H1) as [H3 [ext2 H4]]. split; [done|].
  exists (ext1 ++ ext2). by rewrite H4, H2, <- app_assoc.
Qed.

Lemma grows_getitem (key : string) : grows reg (AUG_METHODS_getitem key).
Proof.
  apply grows_same. intros st. unfold AUG_METHODS_getitem. by destruct (AUG_METHODS st !! key).
Qed.

Lemma grows_on_heap {A} (m : M (list object) A) : grows_m m → grows reg (on_heap m).
Proof.
  intros Hm st Hst. unfold on_heap. destruct (Hm (heap st)) as [ext Hext].
  destruct (m (heap st)) as [r h]. simpl in *. split; [exact Hst|]. by exists ext.
Qed.

(** Looking a name up and calling what is found. *)
Lemma grows_lookup_call (key : string) (args : list value) (kwargs : dict) {B}
    (k : value → M interp B) :
  (∀ t, grows reg (k t)) →
  grows reg (do fn <- AUG_METHODS_getitem key; do t <- call fn args kwargs; k t).
Proof using Hreg.
  intros Hk st Hst.
  destruct (AUG_METHODS st !! key) as [fn|] eqn:E.
  - rewrite (bind_run _ _ st st fn) by (unfold AUG_METHODS_getitem; by rewrite E).
    apply grows_bind; [|done|done]. apply grows_on_heap.
    intros h. apply (Hreg key fn). by rewrite <- Hst.
  - rewrite (bind_fail _ _ st st (KeyError key)) by (unfold AUG_METHODS_getitem; by rewrite E).
    split; [exact Hst|]. exists []. by rewrite app_nil_r.
Qed.

Lemma grows_addAugToSequence (aug_name : string) (params : value) (aug_list : list value) :
  grows reg (addAugToSequence aug_name params aug_list).
Proof using Hreg.
  unfold addAugToSequence. destruct (str_eq params "no_params").
  - apply grows_lookup_call. intros t. apply grows_ret.
  - apply grows_bind; [apply grows_assert|]. intros _.
    apply grows_lookup_call. intros t. apply grows_ret.
Qed.

Lemma grows_choices (n : nat) (cs : list value) (l : list value) : grows reg (choices n cs l).
Proof using Hreg.
  revert l. induction cs as [|c cs IH]; intros l; cbn [choices]; [apply grows_ret|].
  destruct (single_item c) as [[k v]|]; [|apply grows_raise].
  apply grows_bind; [apply grows_addAugToSequence|]. intros l'. apply IH.
Qed.

Lemma grows_entries (augments items : dict) (augs : list value) :
  grows reg (entries augments items augs).
Proof using Hreg.
  revert augs. induction items as [|[key params] items IH]; intros augs; cbn [entries];
    [apply grows_ret|].
  destruct (String.eqb key "random_choice").
  - apply grows_bind; [apply grows_assert|]. intros _.
    apply grows_bind.
    { destruct (dict_get augments key); [apply grows_lift|apply grows_raise]. }
    intros cs. apply grows_bind; [apply grows_choices|]. intros l.
    apply grows_lookup_call. intros t. apply IH.
  - apply grows_bind; [apply grows_addAugToSequence|]. intros l. apply IH.
Qed.

Lemma grows_new (c : string) (a : dict) : grows_m (new c a).
Proof. intros h. by eexists. Qed.

Lemma grows_Compose (l : list value) : grows reg (Compose l).
Proof. apply grows_on_heap, grows_new. Qed.

Lemma grows_create_AugTransforms (augments : dict) : grows reg (create_AugTransforms augments).
Proof using Hreg.
  unfold create_AugTransforms.
  apply grows_bind; [apply grows_entries|]. intros augs. apply grows_Compose.
Qed.

Lemma grows_getattr (v : value) (name : string) : grows reg (getattr v name).
Proof. apply grows_same. intros st. apply getattr_state. Qed.

Lemma grows_select (base : value) (t : list value) (l : list value) :
  grows reg (BaseClassWiseAugmenter.select base t l).
Proof.
  revert l. induction t as [|i t IH]; intros l; cbn [BaseClassWiseAugmenter.select];
    [apply grows_ret|].
  apply grows_bind; [apply grows_getattr|]. intros ts.
  apply grows_bind; [apply grows_lift|]. intros n.
  apply grows_bind; [apply grows_lift|]. intros s. apply IH.
Qed.

Lemma grows_classes (base : value) (items : dict) (m : gmap string value) :
  grows reg (BaseClassWiseAugmenter.classes base items m).
Proof.
  revert m. induction items as [|[c t] items IH]; intros m;
    cbn [BaseClassWiseAugmenter.classes]; [apply grows_ret|].
  apply grows_bind; [apply grows_lift|]. intros l.
  apply grows_bind; [apply grows_select|]. intros tr.
  apply grows_bind; [apply grows_Compose|]. intros p. apply IH.
Qed.

Lemma grows_init (base : dict) (mapping : option dict) :
  grows reg (BaseClassWiseAugmenter.__init__ base mapping).
Proof using Hreg.
  unfold BaseClassWiseAugmenter.__init__.
  apply grows_bind; [apply grows_create_AugTransforms|]. intros p.
  destruct mapping as [mapping|]; [|apply grows_ret].
  apply grows_bind; [apply grows_classes|]. intros m. apply grows_ret.
Qed.

End Grows.

(** The factories the module registers only add to the heap. *)
Lemma grows_m_raise {A} (e : exn) : grows_m (raise (A := A) e).
Proof. intros h. exists []. by rewrite app_nil_r. Qed.

Lemma grows_m_bind {A B} (m : M (list object) A) (k : A → M (list object) B) :
  grows_m m → (∀ a, grows_m (k a)) → grows_m (bind m k).
Proof.
  intros Hm Hk h. unfold bind. destruct (Hm h) as [ext1 H1].
  destruct (m h) as [[a|e] h1]; simpl in *; [|by eauto].
  destruct (Hk a h1) as [ext2 H2]. exists (ext1 ++ ext2). by rewrite H2, H1, <- app_assoc.
Qed.

Lemma grows_m_lift {A} (r : result A) : grows_m (lift r).
Proof. intros h. exists []. by rewrite app_nil_r. Qed.

Lemma grows_m_T (c : string) (args : list value) (kwargs : dict) : grows_m (T c args kwargs).
Proof. apply grows_new. Qed.

Lemma grows_def (name : string) (sig : list param) (body : dict → M (list object) value) :
  (∀ b, grows_m (body b)) → grows_call (def name sig body).
Proof. intros Hb args kwargs. apply grows_m_bind; [apply grows_m_lift|done]. Qed.

Lemma grows_fn (name : string) (f : list value → dict → M (list object) value) :
  (∀ args kwargs, grows_m (f args kwargs)) → grows_call {| __name__ := name; __call__ := f |}.
Proof. intros Hf args kwargs. apply Hf. Qed.

Ltac grows_tac :=
  repeat first
    [ apply grows_new | apply grows_m_T | apply grows_m_raise | apply grows_m_lift
    | apply grows_def; intros ?
    | apply grows_m_bind; [|intros ?]
    | match goal with |- grows_m (match ?x with _ => _ end) => destruct x end ].

Lemma decorated_grows (listdir : string → list string) (eval : string → result value) :
  Forall grows_call (decorated listdir eval).
Proof.
  unfold decorated.
  repeat (apply Forall_cons; split;
          [first [ solve [grows_tac]
                 | apply grows_fn; intros ? ?; solve [grows_tac] ]|]).
  apply Forall_nil_2.
Qed.

Lemma import_module_grows (listdir : string → list string) (eval : string → result value) :
  grows_registry (AUG_METHODS (snd (import_module listdir eval))).
Proof.
  intros name fn H. apply register_all_lookup in H as [H|H]; [done|].
  pose proof (decorated_grows listdir eval) as Hall. rewrite Forall_forall in Hall.
  by apply Hall.
Qed.

Lemma steps_of_app (st st' : interp) (ext : list object) (r : nat) :
  heap st' = heap st ++ ext → (r < length (heap st))%nat →
  steps_of st' (VObj r) = steps_of st (VObj r).
Proof.
  intros H Hr. unfold steps_of, getattr, ref. rewrite H.
  rewrite (lookup_app_l (heap st)) by exact Hr.
  destruct (heap st !! r) as [o|]; [|reflexivity].
  destruct (dict_get (attrs o) "transforms"); reflexivity.
Qed.

(** X15. With a registry of functions that only create objects, as the
    module's own are, compiling a configuration and constructing a
    class-wise dispatcher only add objects to the heap, whether they
    return or raise: every object that existed before is still there,
    unchanged, so a pipeline compiled earlier keeps its steps. *)
Theorem create_AugTransforms_heap_grows (augments : dict) (mapping : option dict)
    (st : interp) :
  grows_registry (AUG_METHODS st) →
  (∃ ext, heap (snd (create_AugTransforms augments st)) = heap st ++ ext) ∧
  (∃ ext, heap (snd (BaseClassWiseAugmenter.__init__ augments mapping st)) = heap st ++ ext) ∧
  (∀ r, (r < length (heap st))%nat →
     steps_of (snd (create_AugTransforms augments st)) (VObj r) = steps_of st (VObj r) ∧
     steps_of (snd (BaseClassWiseAugmenter.__init__ augments mapping st)) (VObj r)
     = steps_of st (VObj r)).
Proof.
  intros Hreg.
  destruct (grows_create_AugTransforms _ Hreg augments st eq_refl) as [_ [ext1 H1]].
  destruct (grows_init _ Hreg augments mapping st eq_refl) as [_ [ext2 H2]].
  split; [by exists ext1|]. split; [by exists ext2|].
  intros r Hr. split; [exact (steps_of_app _ _ _ _ H1 Hr)|exact (steps_of_app _ _ _ _ H2 Hr)].
Qed.

Lemma sample_compiled_grows : grows_registry (AUG_METHODS (snd sample_compiled)).
Proof.
  unfold sample_compiled. rewrite frame_create_AugTransforms. apply import_module_grows.
Qed.

Lemma heap_sample_compiled : (5 < length (heap (snd sample_compiled)))%nat.
Proof. vm_compute. lia. Qed.

Lemma create_AugTransforms_heap_grows_witness :
  steps_of (snd (create_AugTransforms sample_config (snd sample_compiled))) (VObj 5%nat)
  = steps_of (snd sample_compiled) (VObj 5%nat).
Proof.
  exact (proj1 (proj2 (proj2 (create_AugTransforms_heap_grows sample_config None
                                (snd sample_compiled) sample_compiled_grows))
                 5%nat heap_sample_compiled)).
Defined.

(** ** The noise pool, further *)

Lemma list_ascii_of_string_app (a b : string) :
  list_ascii_of_string (a +:+ b) = list_ascii_of_string a ++ list_ascii_of_string b.
Proof. induction a as [|c a IH]; [done|]. simpl. by rewrite IH. Qed.

Lemma take_while_app {A} (f : A → bool) (l1 l2 : list A) (x : A) :
  forallb f l1 = true → f x = false → take_while f (l1 ++ x :: l2) = l1.
Proof.
  intros Hl Hx. induction l1 as [|a l1 IH]; simpl in *; [by rewrite Hx|].
  apply andb_true_iff in Hl as [-> Hl]. by rewrite IH.
Qed.

Lemma forallb_rev {A} (f : A → bool) (l : list A) : forallb f (rev l) = forallb f l.
Proof.
  induction l as [|a l IH]; [done|]. simpl. rewrite forallb_app, IH. simpl.
  by rewrite andb_true_r, andb_comm.
Qed.

Lemma ends_with_jpg_inv (name : string) :
  ends_with_jpg name = true →
  ∃ rest, rev (list_ascii_of_string name)
          = "g"%char :: "p"%char :: "j"%char :: "."%char :: rest.
Proof.
  unfold ends_with_jpg. intros H.
  destruct (rev (list_ascii_of_string name)) as [|a1 l]; [done|].
  destruct a1 as [[] [] [] [] [] [] [] []]; try done.
  destruct l as [|a2 l]; [done|].
  destruct a2 as [[] [] [] [] [] [] [] []]; try done.
  destruct l as [|a3 l]; [done|].
  destruct a3 as [[] [] [] [] [] [] [] []]; try done.
  destruct l as [|a4 l]; [done|].
  destruct a4 as [[] [] [] [] [] [] [] []]; try done.
  by exists l.
Qed.

Lemma matches_jpg_inv (name : string) :
  matches_jpg name = true →
  ∃ c0 cs, list_ascii_of_string name = c0 :: cs ∧ Ascii.eqb c0 "." = false ∧
           ends_with_jpg name = true.
Proof.
  unfold matches_jpg. intros H.
  destruct (list_ascii_of_string name) as [|c0 cs] eqn:E.
  { unfold ends_with_jpg in H. by rewrite E in H. }
  exists c0, cs. split; [done|].
  by destruct c0 as [[] [] [] [] [] [] [] []].
Qed.

(** A path the pattern [*.jpg] admits has the extension [.jpg]. *)
Lemma splitext_ext_jpg (noisy_src name : string) :
  forallb (λ c, negb (Ascii.eqb c "/")) (list_ascii_of_string name) = true →
  matches_jpg name = true →
  splitext_ext (noisy_src +:+ "/" +:+ name) = ".jpg".
Proof.
  intros Hslash Hm. unfold splitext_ext.
  rewrite !list_ascii_of_string_app. cbn [list_ascii_of_string app].
  rewrite rev_app_distr. cbn [rev]. rewrite <- !app_assoc. cbn [app].
  rewrite take_while_app by (by rewrite ?forallb_rev).
  destruct (matches_jpg_inv _ Hm) as (c0 & cs & Ecs & Hc0 & Hend).
  destruct (ends_with_jpg_inv _ Hend) as [rest Hrev].
  rewrite Hrev. cbn [take_while Ascii.eqb Bool.eqb negb length drop andb].
  assert (rev (rev (list_ascii_of_string name)) = c0 :: cs) as Hrr
    by (by rewrite rev_involutive).
  rewrite Hrev in Hrr. cbn [rev] in Hrr. rewrite <- !app_assoc in Hrr. cbn [app] in Hrr.
  assert (forallb (λ c, Ascii.eqb c ".") rest = false) as Hstem.
  { rewrite <- forallb_rev. destruct (rev rest) as [|x xs].
    - cbn [app] in Hrr. injection Hrr as <- _. done.
    - cbn [app] in Hrr. injection Hrr as -> _. simpl. by rewrite Hc0. }
  destruct rest as [|r rest]; [done|]. rewrite Hstem. reflexivity.
Qed.

Lemma list_getitem_head {A} (x : A) (l : list A) : list_getitem (x :: l) 0 = Ok x.
Proof.
  unfold list_getitem. cbn [Z.ltb Z.compare].
  replace ((0 <=? 0) && (0 <? Z.of_nat (length (x :: l)))) with true; [done|].
  symmetry. apply andb_true_iff. split; [lia|]. apply Z.ltb_lt. simpl. lia.
Qed.



(** ** class CutAddNoise (the call) *)

Lemma getpixel_raster (w h : Z) (f : Z → Z → pixel) (x y : Z) :
  getpixel {| width := w; height := h;
              rows := map (λ j, map (λ i, f (Z.of_nat i) (Z.of_nat j)) (seq 0 (Z.to_nat w)))
                          (seq 0 (Z.to_nat h)) |} x y
  = if (0 <=? x) && (x <? w) && (0 <=? y) && (y <? h) then Some (f x y) else None.
Proof.
  unfold getpixel. cbn [width height rows].
  destruct ((0 <=? x) && (x <? w) && (0 <=? y) && (y <? h)) eqn:E; [|done].
  rewrite !andb_true_iff in E.
  rewrite list_lookup_fmap, lookup_seq_lt by lia. cbn [fmap option_fmap option_map].
  rewrite list_lookup_fmap, lookup_seq_lt by lia. cbn [fmap option_fmap option_map].
  simpl. by rewrite !Z2Nat.id by lia.
Qed.

Lemma wf_raster (w h : Z) (f : Z → Z → pixel) :
  0 <= w → 0 <= h →
  wf_image {| width := w; height := h;
              rows := map (λ j, map (λ i, f (Z.of_nat i) (Z.of_nat j)) (seq 0 (Z.to_nat w)))
                          (seq 0 (Z.to_nat h)) |}.
Proof.
  intros Hw Hh. unfold wf_image. cbn [width height rows].
  split; [done|]. split; [done|]. split.
  - by rewrite length_map, length_seq.
  - apply Forall_forall. intros r Hr. apply list_elem_of_fmap in Hr as (j & -> & _).
    by rewrite length_map, length_seq.
Qed.

Lemma Image_crop_Ok (im : Image) (x1 y1 x2 y2 : Z) :
  x1 <= x2 → y1 <= y2 →
  ∃ c, Image_crop im (x1, y1, x2, y2) = Ok c ∧
       ∀ i j, getpixel c i j
              = if (0 <=? i) && (i <? x2 - x1) && (0 <=? j) && (j <? y2 - y1)
                then Some (default black (getpixel im (x1 + i) (y1 + j))) else None.
Proof.
  intros Hx Hy. unfold Image_crop.
  destruct (x2 <? x1) eqn:E1; [lia|]. destruct (y2 <? y1) eqn:E2; [lia|].
  eexists. split; [reflexivity|]. intros i j.
  apply (getpixel_raster (x2 - x1) (y2 - y1)
           (λ i j, default black (getpixel im (x1 + i) (y1 + j)))).
Qed.

(** One patch: the noise image's own pixels inside the box, the
    image's elsewhere. *)
Lemma noise_patch_pixel (img noise c : Image) (x1 y1 x2 y2 x y : Z) :
  wf_image img → wf_image noise →
  width noise = width img → height noise = height img →
  0 <= x1 <= x2 → x2 <= width img → 0 <= y1 <= y2 → y2 <= height img →
  (∀ i j, getpixel c i j
          = if (0 <=? i) && (i <? x2 - x1) && (0 <=? j) && (j <? y2 - y1)
            then Some (default black (getpixel noise (x1 + i) (y1 + j))) else None) →
  getpixel (paste img c (x1, y1)) x y
  = if in_box x y (x1, y1, x2, y2) then getpixel noise x y else getpixel img x y.
Proof.
  intros Hwi Hwn Hw Hh Hx1 Hx2 Hy1 Hy2 Hc.
  rewrite getpixel_paste, Hc. unfold in_box.
  replace ((0 <=? x - x1) && (x - x1 <? x2 - x1) && (0 <=? y - y1) && (y - y1 <? y2 - y1))
    with ((x1 <=? x) && (x <? x2) && (y1 <=? y) && (y <? y2))
    by (apply eq_true_iff_eq; rewrite !andb_true_iff; lia).
  destruct ((x1 <=? x) && (x <? x2) && (y1 <=? y) && (y <? y2)) eqn:E.
  - rewrite !andb_true_iff in E.
    replace (x1 + (x - x1)) with x by lia. replace (y1 + (y - y1)) with y by lia.
    destruct (getpixel_inside img x y Hwi) as [p ->]; [lia|lia|].
    destruct (getpixel_inside noise x y Hwn) as [q ->]; [lia|lia|]. done.
  - by destruct (getpixel img x y).
Qed.

Section NoiseCall.

Variable Image_open_rgb : string → result Image.
Variable Image_resize : Image → Z * Z → result Image.

Lemma CutAddNoise_holes_pixels (self : CutAddNoiseCall.t) (noise : Image) (h w : Z * Z)
    (n : nat) :
  wf_image noise → 0 <= CutAddNoiseCall.length self →
  0 <= fst h < snd h → snd h <= height noise →
  0 <= fst w < snd w → snd w <= width noise →
  ∀ (img : Image) (rs : RandomState),
    wf_image img → width img = width noise → height img = height noise →
    ∃ out rs',
      CutAddNoiseCall.holes self noise h w n img rs = (Ok out, rs') ∧
      wf_image out ∧ width out = width noise ∧ height out = height noise ∧
      ∀ x y, getpixel out x y
             = if existsb (in_box x y)
                    (map (noise_box (CutAddNoiseCall.length self) (width noise) (height noise))
                         (centers h w n (np_stream rs)))
               then getpixel noise x y else getpixel img x y.
Proof.
  intros Hwn HL Hh Hh' Hw Hw'. induction n as [|n IH]; intros img rs Hwi Hiw Hih.
  { exists img, rs. cbn [CutAddNoiseCall.holes centers map existsb]. done. }
  cbn [CutAddNoiseCall.holes]. unfold bind at 1. unfold CutAddNoiseCall.hole.
  unfold bind at 1. rewrite (randint_in_range _ _ rs) by lia.
  unfold bind at 1. rewrite randint_in_range by lia.
  cbn [np_stream py_stream centers map existsb].
  set (cx := fst w + np_stream rs 1%nat mod (snd w - fst w)).
  set (cy := fst h + np_stream rs 0%nat mod (snd h - fst h)).
  assert (fst w <= cx < snd w) as Hcx
    by (pose proof (Z.mod_pos_bound (np_stream rs 1%nat) (snd w - fst w) ltac:(lia)); lia).
  assert (fst h <= cy < snd h) as Hcy
    by (pose proof (Z.mod_pos_bound (np_stream rs 0%nat) (snd h - fst h) ltac:(lia)); lia).
  assert (0 <= CutAddNoiseCall.length self / 2) as Hhalf by (apply Z.div_pos; lia).
  set (x1 := Z.max 0 (cx - CutAddNoiseCall.length self / 2)).
  set (y1 := Z.max 0 (cy - CutAddNoiseCall.length self / 2)).
  set (x2 := Z.min (width noise) (cx + CutAddNoiseCall.length self / 2)).
  set (y2 := Z.min (height noise) (cy + CutAddNoiseCall.length self / 2)).
  destruct (Image_crop_Ok noise x1 y1 x2 y2) as (c & Hcrop & Hc); [lia|lia|].
  unfold bind at 1. unfold lift. rewrite Hcrop. cbn [ret].
  destruct (IH (paste img c (x1, y1))
              {| py_stream := py_stream rs; np_stream := λ k, np_stream rs (S (S k)) |})
    as (out & rs' & Hrun & Hwo & How & Hoh & Hpix).
  { by apply wf_paste. }
  { done. }
  { done. }
  exists out, rs'. split; [exact Hrun|]. split; [done|]. split; [done|]. split; [done|].
  intros x y. rewrite Hpix. cbn [np_stream].
  change (noise_box (CutAddNoiseCall.length self) (width noise) (height noise) (cx, cy))
    with (x1, y1, x2, y2).
  rewrite (noise_patch_pixel img noise c x1 y1 x2 y2 x y) by (done || lia).
  destruct (in_box x y (x1, y1, x2, y2)); cbn [orb]; [|done].
  by destruct (existsb _ _).
Qed.

(** What a call does up to the loop, once the gate lets it through. *)
Lemma CutAddNoise_call_open (self : CutAddNoiseCall.t) (image : Image) (rs : RandomState) :
  Qle_bool (gate rs) (CutAddNoiseCall.prob self) = true →
  CutAddNoiseCall.noisy self ≠ [] →
  (∀ path, path ∈ CutAddNoiseCall.noisy self →
     ∃ opened noise, Image_open_rgb path = Ok opened ∧
       Image_resize opened (width image, height image) = Ok noise ∧
       wf_image noise ∧ width noise = width image ∧ height noise = height image) →
  ∃ path opened noise,
    path ∈ CutAddNoiseCall.noisy self ∧ Image_open_rgb path = Ok opened ∧
    Image_resize opened (width image, height image) = Ok noise ∧
    wf_image noise ∧ width noise = width image ∧ height noise = height image ∧
    CutAddNoiseCall.__call__ Image_open_rgb Image_resize self image rs
    = CutAddNoiseCall.holes self noise (noise_h self image) (noise_w self image)
        (Z.to_nat (CutAddNoiseCall.n_holes self)) image
        {| py_stream := λ n, py_stream rs (S (S n)); np_stream := np_stream rs |}.
Proof.
  intros Hgate Hpool Hfiles.
  unfold CutAddNoiseCall.__call__. unfold bind at 1. unfold random_random at 1.
  change (Qmake (py_stream rs 0%nat mod Zpos two53) two53) with (gate rs).
  rewrite Hgate. cbn [negb]. unfold deepcopy.
  unfold bind at 1. unfold py_random_choice. cbn [py_stream np_stream].
  destruct (lookup_lt_is_Some_2 (CutAddNoiseCall.noisy self)
              (Z.to_nat (py_stream rs 1%nat
                         mod Z.of_nat (length (CutAddNoiseCall.noisy self)))))
    as [path Hpath].
  { destruct (CutAddNoiseCall.noisy self) as [|p l]; [done|].
    pose proof (Z.mod_pos_bound (py_stream rs 1%nat) (Z.of_nat (length (p :: l)))
                  ltac:(simpl; lia)). lia. }
  change (@List.length string) with (@length string). rewrite Hpath.
  assert (path ∈ CutAddNoiseCall.noisy self) as Hin by (by eapply list_elem_of_lookup_2).
  destruct (Hfiles path Hin) as (opened & noise & Hopen & Hresize & Hwn & Hnw & Hnh).
  unfold bind at 1. unfold lift at 1. rewrite Hopen.
  unfold bind at 1. unfold lift at 1. rewrite Hresize.
  by exists path, opened, noise.
Qed.

(** A box around a centre of the sampling range is empty when half the
    side length is 0. *)
Lemma noise_box_empty (L W H x y : Z) (c : Z * Z) :
  0 <= L <= 1 → 0 <= fst c < W → 0 <= snd c < H →
  in_box x y (noise_box L W H c) = false.
Proof.
  intros HL Hx Hy. unfold noise_box, in_box.
  replace (L / 2) with 0 by (symmetry; apply Z.div_small; lia).
  rewrite !andb_false_iff, !Z.leb_gt, !Z.ltb_ge. lia.
Qed.

(** X17. When the noise transform is applied to a well-formed image,
    with a side length of at least 0, sampling ranges inside the image
    and a pool whose files open and resize to the image's size, it
    returns an image of the input's size in which each pixel inside a
    patch box is the pixel of the resized noise image at the same
    position, and every other pixel is the input's: the patches come
    from one noise file per call and keep their place. *)
Theorem CutAddNoise_call_pixels (self : CutAddNoiseCall.t) (image : Image) (rs : RandomState) :
  wf_image image →
  Qle_bool (gate rs) (CutAddNoiseCall.prob self) = true →
  0 <= CutAddNoiseCall.length self →
  0 <= fst (noise_h self image) < snd (noise_h self image) →
  snd (noise_h self image) <= height image →
  0 <= fst (noise_w self image) < snd (noise_w self image) →
  snd (noise_w self image) <= width image →
  CutAddNoiseCall.noisy self ≠ [] →
  (∀ path, path ∈ CutAddNoiseCall.noisy self →
     ∃ opened noise, Image_open_rgb path = Ok opened ∧
       Image_resize opened (width image, height image) = Ok noise ∧
       wf_image noise ∧ width noise = width image ∧ height noise = height image) →
  ∃ path opened noise out rs',
    path ∈ CutAddNoiseCall.noisy self ∧ Image_open_rgb path = Ok opened ∧
    Image_resize opened (width image, height image) = Ok noise ∧
    CutAddNoiseCall.__call__ Image_open_rgb Image_resize self image rs = (Ok out, rs') ∧
    wf_image out ∧ width out = width image ∧ height out = height image ∧
    ∀ x y, getpixel out x y
           = if under_noise self image rs x y then getpixel noise x y else getpixel image x y.
Proof.
  intros Hwi Hgate HL Hh Hh' Hw Hw' Hpool Hfiles.
  destruct (CutAddNoise_call_open self image rs Hgate Hpool Hfiles)
    as (path & opened & noise & Hin & Hopen & Hresize & Hwn & Hnw & Hnh & ->).
  destruct (CutAddNoise_holes_pixels self noise (noise_h self image) (noise_w self image)
              (Z.to_nat (CutAddNoiseCall.n_holes self)) Hwn HL) with (img := image)
    (rs := {| py_stream := λ n, py_stream rs (S (S n)); np_stream := np_stream rs |})
    as (out & rs' & Hrun & Hwo & How & Hoh & Hpix); try (done || lia).
  exists path, opened, noise, out, rs'.
  split; [done|]. split; [done|]. split; [done|].
  split; [exact Hrun|]. split; [done|]. split; [lia|]. split; [lia|].
  intros x y. rewrite Hpix. unfold under_noise, noise_boxes. cbn [np_stream].
  by rewrite Hnw, Hnh.
Qed.

(** X18. With a side length of 0 or 1 every patch box is empty, half
    the side being 0: under the conditions above the noise transform
    returns the input image, whatever the number of patches. *)
Theorem CutAddNoise_call_unit_length (self : CutAddNoiseCall.t) (image : Image)
    (rs : RandomState) :
  wf_image image →
  Qle_bool (gate rs) (CutAddNoiseCall.prob self) = true →
  0 <= CutAddNoiseCall.length self <= 1 →
  0 <= fst (noise_h self image) < snd (noise_h self image) →
  snd (noise_h self image) <= height image →
  0 <= fst (noise_w self image) < snd (noise_w self image) →
  snd (noise_w self image) <= width image →
  CutAddNoiseCall.noisy self ≠ [] →
  (∀ path, path ∈ CutAddNoiseCall.noisy self →
     ∃ opened noise, Image_open_rgb path = Ok opened ∧
       Image_resize opened (width image, height image) = Ok noise ∧
       wf_image noise ∧ width noise = width image ∧ height noise = height image) →
  fst (CutAddNoiseCall.__call__ Image_open_rgb Image_resize self image rs) = Ok image.
Proof.
  intros Hwi Hgate HL Hh Hh' Hw Hw' Hpool Hfiles.
  destruct (CutAddNoise_call_open self image rs Hgate Hpool Hfiles)
    as (path & opened & noise & Hin & Hopen & Hresize & Hwn & Hnw & Hnh & ->).
  destruct (CutAddNoise_holes_pixels self noise (noise_h self image) (noise_w self image)
              (Z.to_nat (CutAddNoiseCall.n_holes self)) Hwn) with (img := image)
    (rs := {| py_stream := λ n, py_stream rs (S (S n)); np_stream := np_stream rs |})
    as (out & rs' & Hrun & Hwo & How & Hoh & Hpix); try (done || lia).
  rewrite Hrun. cbn [fst]. f_equal.
  apply Image_eq; [lia|lia|]. apply rows_ext; [done|done|lia|lia|].
  intros x y. rewrite Hpix.
  assert (existsb (in_box x y)
            (map (noise_box (CutAddNoiseCall.length self) (width noise) (height noise))
               (centers (noise_h self image) (noise_w self image)
                  (Z.to_nat (CutAddNoiseCall.n_holes self))
                  (np_stream {| py_stream := λ n, py_stream rs (S (S n));
                                np_stream := np_stream rs |}))) = false) as ->; [|done].
  pose proof (centers_in_range (noise_h self image) (noise_w self image)
                (Z.to_nat (CutAddNoiseCall.n_holes self)) (np_stream rs)
                ltac:(lia) ltac:(lia)) as Hcs.
  cbn [np_stream]. induction Hcs as [|c cs Hc _ IH]; [done|].
  cbn [map existsb]. rewrite IH, orb_false_r. apply noise_box_empty; lia.
Qed.

End NoiseCall.

Lemma sample_files (path : string) :
  path ∈ ["noise/a.jpg"] →
  ∃ opened noise, sample_open path = Ok opened ∧
    sample_resize opened (width (solid 4 4 white), height (solid 4 4 white)) = Ok noise ∧
    wf_image noise ∧ width noise = width (solid 4 4 white) ∧
    height noise = height (solid 4 4 white).
Proof.
  intros Hin. apply list_elem_of_singleton in Hin as ->.
  eexists _, _. split; [reflexivity|]. split; [reflexivity|].
  split; [|done]. unfold wf_image. simpl. repeat split; try lia. repeat constructor.
Qed.

Lemma CutAddNoise_call_pixels_witness :
  ∃ out, fst (CutAddNoiseCall.__call__ sample_open sample_resize (noise_patches 1 2)
                (solid 4 4 white) draws_one_hole) = Ok out ∧
         width out = 4 ∧ height out = 4.
Proof.
  destruct (CutAddNoise_call_pixels sample_open sample_resize (noise_patches 1 2)
              (solid 4 4 white) draws_one_hole)
    as (path & opened & noise & out & rs' & _ & _ & _ & Hrun & _ & Hw & Hh & _).
  - apply wf_solid.
  - reflexivity.
  - simpl. lia.
  - simpl. lia.
  - simpl. lia.
  - simpl. lia.
  - simpl. lia.
  - discriminate.
  - exact sample_files.
  - exists out. rewrite Hrun. split; [reflexivity|]. split; [exact Hw|exact Hh].
Defined.

Lemma CutAddNoise_call_unit_length_witness :
  fst (CutAddNoiseCall.__call__ sample_open sample_resize (noise_patches 3 1)
         (solid 4 4 white) draws_one_hole) = Ok (solid 4 4 white).
Proof.
  apply CutAddNoise_call_unit_length.
  - apply wf_solid.
  - reflexivity.
  - simpl. lia.
  - simpl. lia.
  - simpl. lia.
  - simpl. lia.
  - simpl. lia.
  - discriminate.
  - exact sample_files.
Defined.

(** ** Class-wise dispatcher, further *)

Lemma picks_valid (steps l picked : list value) :
  picks steps l picked →
  Forall (λ v, ∃ i, py_int v = Ok i ∧
                    - Z.of_nat (length steps) <= i < Z.of_nat (length steps)) l.
Proof.
  unfold picks. induction 1 as [|v s l picked (i & Hi & Hs) _ IH]; constructor; [|done].
  exists i. split; [done|].
  destruct (decide (- Z.of_nat (length steps) <= i < Z.of_nat (length steps))) as [|Hout];
    [done|].
  rewrite list_getitem_out_of_range in Hs by lia. done.
Qed.

(** A loop over the mapping that ends has read valid indices only. *)
Lemma classes_valid (base : ref) (steps : list value) (items : dict) :
  ∀ (ct ct' : gmap string value) (st st' : interp),
    holds_base base steps st →
    BaseClassWiseAugmenter.classes (VObj base) items ct st = (Ok ct', st') →
    Forall (λ ct, valid_indices (length steps) (snd ct)) items.
Proof.
  induction items as [|[c t] items IH]; intros ct ct' st st' Hb H;
    cbn [BaseClassWiseAugmenter.classes] in H; [constructor|].
  apply bind_Ok in H as (l & s0 & Hl & H). unfold lift in Hl. injection Hl as Hl <-.
  apply bind_Ok in H as (picked & s1 & Hsel & H).
  apply (select_Ok _ _ _ _ _ _ _ Hb) in Hsel as (-> & picked' & -> & Hp). simpl in Hp.
  apply bind_Ok in H as (p & s2 & Hc & H).
  pose proof (holds_base_Compose _ _ _ _ _ _ Hb Hc) as Hb2.
  constructor; [|by apply (IH _ _ _ _ Hb2 H)].
  exists l. split; [done|]. by apply picks_valid in Hp.
Qed.



(** ** Padding and cropping back *)

Lemma Image_crop_wf (im c : Image) (x1 y1 x2 y2 : Z) :
  Image_crop im (x1, y1, x2, y2) = Ok c →
  wf_image c ∧ width c = x2 - x1 ∧ height c = y2 - y1.
Proof.
  unfold Image_crop.
  destruct (x2 <? x1) eqn:E1; [done|]. destruct (y2 <? y1) eqn:E2; [done|].
  intros H. apply Ok_inj in H. rewrite <- H. split; [|done].
  apply (wf_raster (x2 - x1) (y2 - y1) (λ i j, default black (getpixel im (x1 + i) (y1 + j))));
    lia.
Qed.

(** X20. Cropping the result of the square padding at the place where
    the input was pasted, to the input's size, gives the input back. *)
Theorem PadIfNeed_call_crop_back (getcolor : value → result pixel)
    (self : PadIfNeed.t) (image out : Image) :
  wf_image image →
  PadIfNeed.__call__ getcolor self image = Ok out →
  Image_crop out (fst (pad_offset self image), snd (pad_offset self image),
                  fst (pad_offset self image) + width image,
                  snd (pad_offset self image) + height image) = Ok image.
Proof.
  intros Hwf Hcall. pose proof Hwf as (Hw0 & Hh0 & _).
  unfold PadIfNeed.__call__ in Hcall.
  destruct (getcolor (PadIfNeed.pad_value self)) as [fill|e]; [|done]. cbn [rbind] in Hcall.
  set (side := Z.max (width image) (height image)) in *.
  destruct (Image_new (side, side) fill) as [canvas|e] eqn:Hnew; [|done]. cbn [rbind] in Hcall.
  set (ox := fst (pad_offset self image)). set (oy := snd (pad_offset self image)).
  assert (0 <= ox ∧ ox + width image <= side ∧ 0 <= oy ∧ oy + height image <= side ∧
          out = paste canvas image (ox, oy)) as (Hox & Hox' & Hoy & Hoy' & ->).
  { unfold ox, oy, pad_offset. fold side.
    assert (width image <= side ∧ height image <= side) as [Hsw Hsh] by (unfold side; lia).
    assert (0 <= (side - width image) / 2 <= side - width image).
    { split; [apply Z.div_pos|apply Z.div_le_upper_bound]; lia. }
    assert (0 <= (side - height image) / 2 <= side - height image).
    { split; [apply Z.div_pos|apply Z.div_le_upper_bound]; lia. }
    destruct (str_eq (PadIfNeed.mode self) "average"); apply Ok_inj in Hcall;
      cbn [fst snd]; (split; [lia|]; split; [lia|]; split; [lia|]; split; [lia|]);
      by rewrite <- Hcall. }
  destruct (pad_pasted canvas image fill side ox oy Hwf Hnew Hox Hoy Hox' Hoy') as [Hin _].
  destruct (Image_crop_Ok (paste canvas image (ox, oy)) ox oy (ox + width image)
              (oy + height image)) as (c & Hcrop & Hc); [lia|lia|].
  rewrite Hcrop. f_equal.
  destruct (Image_crop_wf _ _ _ _ _ _ Hcrop) as (Hwc & Hcw & Hch).
  apply Image_eq; [lia|lia|]. apply rows_ext; [done|done|lia|lia|].
  intros x y. rewrite Hc.
  replace (ox + width image - ox) with (width image) by lia.
  replace (oy + height image - oy) with (height image) by lia.
  destruct ((0 <=? x) && (x <? width image) && (0 <=? y) && (y <? height image)) eqn:E.
  - rewrite !andb_true_iff in E. rewrite Hin by lia.
    by destruct (getpixel_inside image x y Hwf) as [p ->]; [lia|lia|].
  - rewrite getpixel_outside; [done|]. rewrite !andb_false_iff in E. lia.
Qed.

Lemma PadIfNeed_call_crop_back_witness :
  Image_crop
    (paste (solid 5 5 black) (solid 2 5 white) (1, 0)) (1, 0, 1 + 2, 0 + 5)
  = Ok (solid 2 5 white).
Proof.
  apply (PadIfNeed_call_crop_back rgb_of_value
           {| PadIfNeed.pad_value := VTuple [VInt 0; VInt 0; VInt 0];
              PadIfNeed.mode := VStr "average" |} (solid 2 5 white)).
  - apply wf_solid.
  - reflexivity.
Defined.

(** ** Registering, then compiling *)


